(** * Admin dashboard backend: pagination, in-memory sorting and
      Firestore index validation / provisioning

    A shallow embedding of the algorithmic core of the Flask admin
    backend:

    - [app/routes/file_categories.py]: [_paginate_firestore] and
      [get_file_categories] (search, status filter, [get_sort_value]
      with the call to [list.sort], pagination);
    - [app/routes/firestore_indexes.py]: the body of [validate_indexes],
      the provisioning loop of [create_indexes], the grouping of
      [get_indexes_info] and [create_indexes_using_firebase_cli];
    - [app/routes/file_categories.py]: [require_admin] and the handlers
      [create_file_category], [get_file_category],
      [update_file_category] and [delete_file_category], over the store
      as an interface.

    Python values are modelled as the code sees them: parsed JSON as an
    inductive type whose objects are finite maps, object attributes as a
    finite map from attribute names to values, integers as [Z], and
    exceptions as an explicit error monad. What the code calls and does
    not define is a parameter of the model: the case mappings of [str],
    the numbers with [datetime.timestamp()], the decoding and JSON
    functions, [jsonify], the Firestore Admin client, [subprocess.run]
    and the store behind the models. *)

From Stdlib Require Import ZArith Lia List Bool Ascii String Sorted Permutation.
From Stdlib Require Import OrderedTypeEx.
From stdpp Require Import base option list gmap strings pretty.

#[local] Open Scope string_scope.
#[local] Open Scope list_scope.
#[local] Open Scope Z_scope.

(* ================================================================== *)
(** * Part I: the model *)
(* ================================================================== *)

(** ** Python exceptions as an error monad *)

Module Py.

(** The exception classes the modelled code can raise. *)
Inductive exn : Type :=
| KeyError (key : string)
| TypeError
| AttributeError
| ZeroDivisionError
| UnicodeDecodeError
| ValueError
| OverflowError
| OSError.

#[export] Instance exn_eq_dec : EqDecision exn.
Proof. solve_decision. Defined.

Inductive result (A : Type) : Type :=
| Return (a : A)
| Raise (e : exn).
Arguments Return {A} a.
Arguments Raise {A} e.

#[export] Instance result_eq_dec {A} `{EqDecision A} : EqDecision (result A).
Proof. solve_decision. Defined.

#[export] Instance result_ret : MRet result := fun A a => Return a.
#[export] Instance result_bind : MBind result := fun A B f m =>
  match m with
  | Return a => f a
  | Raise e => Raise e
  end.

(** [l[start:stop]] on a list (the step is 1), with Python's treatment
    of negative and out-of-range bounds. *)
Definition slice {A} (l : list A) (start stop : Z) : list A :=
  let n := Z.of_nat (length l) in
  let clamp i := if i <? 0 then Z.max (i + n) 0 else Z.min i n in
  let lo := clamp start in
  let hi := clamp stop in
  take (Z.to_nat (hi - lo)) (drop (Z.to_nat lo) l).

(** [a // b] on integers: floor division, [ZeroDivisionError] on 0. *)
Definition floordiv (a b : Z) : result Z :=
  if b =? 0 then Raise ZeroDivisionError else Return (a / b).

(** [s.lower()] and [s.upper()] follow the case mappings of Unicode,
    which are part of the interpreter and not of the program: they are
    taken from the runtime. A [str] is held as its UTF-8 text, on which
    the substring test and the order of [str] are those of the bytes. *)
Class StrCase : Type := {
  str_lower : string -> string;
  str_upper : string -> string
}.

(** [needle in hay] on strings: substring test. *)
Fixpoint contains (needle hay : string) : bool :=
  String.prefix needle hay ||
  match hay with
  | EmptyString => false
  | String _ hay' => contains needle hay'
  end.

End Py.
Import Py.

(** ** [_paginate_firestore] *)

Module Paginate.

(** The dictionary returned by [_paginate_firestore]. *)
Record page (A : Type) : Type := Page {
  items : list A;
  total : Z;
  pages : Z;
  has_next : bool;
  has_prev : bool
}.
Arguments Page {A} _ _ _ _ _.
Arguments items {A} _.
Arguments total {A} _.
Arguments pages {A} _.
Arguments has_next {A} _.
Arguments has_prev {A} _.

Definition _paginate_firestore {A} (query_results : list A) (page per_page : Z)
  : result (Paginate.page A) :=
  let total := Z.of_nat (length query_results) in
  let start := (page - 1) * per_page in
  let end_ := start + per_page in
  let items := slice query_results start end_ in
  pages ← floordiv (total + per_page - 1) per_page;
  Return (Page items total pages (end_ <? total) (1 <? page)).

(** [FileCategoryQuerySchema]: [page >= 1], [1 <= per_page <= 100]. *)
Definition valid_query (page per_page : Z) : Prop :=
  1 <= page /\ 1 <= per_page <= 100.

End Paginate.

(** ** The listing endpoint [get_file_categories] *)

Module Categories.
Import Paginate.

(** What the listing takes from Python's numbers and from [datetime].
    [number] stands for the finite values of [int] and [float], two of
    them being equal when [==] holds, with the integer [0] and with
    [<], which orders them totally. [timestamp()] of a [datetime]
    returns a [float], the same one for instants that are closer than
    the precision of [float], or raises ([OverflowError], [ValueError]
    or [OSError], by value and platform). *)
Class Clock : Type := {
  number : Type;
  number_eq_dec :: EqDecision number;
  zero : number;
  number_lt : number -> number -> bool;
  datetime : Type;
  timestamp : datetime -> result number;
  number_lt_irrefl : forall x, number_lt x x = false;
  number_lt_trans : forall x y z,
    number_lt x y = true -> number_lt y z = true -> number_lt x z = true;
  number_lt_total : forall x y,
    number_lt x y = true \/ x = y \/ number_lt y x = true
}.

(** What [getattr] can find on a [FileCategory] object: [None], a
    string, a number, a [datetime], or an object of another type, one
    that has neither an ordering nor a [lower] method, such as a class
    ([__class__]), a bound method ([to_dict], [save]) or a dictionary
    ([__dict__]); of the latter only the truth value matters. *)
Inductive pyval `{Clock} : Type :=
| PNone
| PStr (s : string)
| PNum (x : number)
| PDatetime (d : datetime)
| PObj (truth : bool).

(** A [FileCategory] instance as [hasattr] and [getattr] see it: the
    dictionary from the names of its attributes (data attributes,
    methods and special attributes alike) to their values.
    [hasattr(cat, a)] is [is_Some (cat !! a)] and [getattr(cat, a)] is
    the value found there. *)
Abbreviation category := (gmap string pyval).

(** Sort keys produced by [get_sort_value]: a string, a number, or an
    object without ordering. *)
Inductive sort_key `{Clock} : Type :=
| KStr (s : string)
| KNum (x : number)
| KObj.

#[export] Instance sort_key_eq_dec `{Clock} : EqDecision sort_key.
Proof. solve_decision. Defined.

Inductive sort_order : Type := asc | desc.

(** [FileCategoryQuerySchema] after validation; [sort] is any string. *)
Record query : Type := Query {
  q_page : Z;
  q_per_page : Z;
  q_search : option string;
  q_status : option string;
  q_sort : string;
  q_order : sort_order
}.

Definition nonempty (o : option string) : option string :=
  match o with
  | Some s => if String.eqb s "" then None else Some s
  | None => None
  end.

Section WithRuntime.
Context `{Clock} `{StrCase}.

(** Truth value of an attribute value; a [datetime] is always true. *)
Definition truthy (v : pyval) : bool :=
  match v with
  | PNone => false
  | PStr s => negb (String.eqb s "")
  | PNum x => negb (bool_decide (x = zero))
  | PDatetime _ => true
  | PObj truth => truth
  end.

Definition get_sort_value (sort_field : string) (cat : category)
  : result sort_key :=
  match cat !! sort_field with
  | Some value =>
      match value with
      | PDatetime d =>
          if truthy value then t ← timestamp d; Return (KNum t)
          else Return (KNum zero)
      | PStr s => Return (if truthy value then KStr s else KStr "")
      | PNum x => Return (if truthy value then KNum x else KStr "")
      | PObj _ => Return (if truthy value then KObj else KStr "")
      | PNone => Return (KStr "")
      end
  | None => Return (KStr "")
  end.

(** [a < b] on sort keys: strings compare with strings and numbers
    with numbers; Python 3 raises [TypeError] for every other pair. *)
Definition key_lt (a b : sort_key) : result bool :=
  match a, b with
  | KStr x, KStr y => Return (String.ltb x y)
  | KNum x, KNum y => Return (number_lt x y)
  | _, _ => Raise TypeError
  end.

Section ListSort.
Context {A : Type}.

(** The keys are computed first, one call per element in list order;
    an exception of the key function leaves the sort. *)
Fixpoint decorate (key : A -> result sort_key) (l : list A)
  : result (list (sort_key * A)) :=
  match l with
  | [] => Return []
  | x :: xs =>
      k ← key x;
      rest ← decorate key xs;
      Return ((k, x) :: rest)
  end.

(** One step of the insertion: the new element goes to the right of
    every element that is not greater than it. *)
Fixpoint insert (x : sort_key * A) (sorted : list (sort_key * A))
  : result (list (sort_key * A)) :=
  match sorted with
  | [] => Return [x]
  | y :: ys =>
      b ← key_lt x.1 y.1;
      if b : bool then Return (x :: y :: ys)
      else (r ← insert x ys; Return (y :: r))
  end.

Fixpoint insert_all (sorted todo : list (sort_key * A))
  : result (list (sort_key * A)) :=
  match todo with
  | [] => Return sorted
  | x :: xs => sorted' ← insert x sorted; insert_all sorted' xs
  end.

(** The sort proper, on the list with its keys: it is stable and uses
    only [<] on keys; with [reverse] the list is reversed before and
    after the ascending sort, which keeps records with equal keys in
    their original order. *)
Definition sort_keyed (reverse : bool) (keyed : list (sort_key * A))
  : result (list A) :=
  let keyed := if reverse then rev keyed else keyed in
  sorted ← insert_all [] keyed;
  let sorted := if reverse then rev sorted else sorted in
  Return (map snd sorted).

(** [l.sort(key=key, reverse=reverse)]. *)
Definition list_sort (key : A -> result sort_key) (reverse : bool)
    (l : list A) : result (list A) :=
  keyed ← decorate key l;
  sort_keyed reverse keyed.
End ListSort.

(** [getattr(cat, a).lower()]: only strings have [lower]. *)
Definition attr_lower (v : pyval) : result string :=
  match v with
  | PStr s => Return (str_lower s)
  | _ => Raise AttributeError
  end.

(** The condition of the search comprehension, with the short-circuit
    evaluation of [and] / [or]. *)
Definition matches_search (search_term : string) (cat : category) : result bool :=
  in_code ← match cat !! "code" with
            | Some v => c ← attr_lower v; Return (contains search_term c)
            | None => Return false
            end;
  if in_code : bool then Return true else
  in_name ← match cat !! "name" with
            | Some v => if truthy v
                        then c ← attr_lower v; Return (contains search_term c)
                        else Return false
            | None => Return false
            end;
  if in_name : bool then Return true else
  match cat !! "description" with
  | Some v => if truthy v
              then c ← attr_lower v; Return (contains search_term c)
              else Return false
  | None => Return false
  end.

Fixpoint filter_search (search_term : string) (cats : list category)
  : result (list category) :=
  match cats with
  | [] => Return []
  | cat :: rest =>
      keep ← matches_search search_term cat;
      rest' ← filter_search search_term rest;
      Return (if keep : bool then cat :: rest' else rest')
  end.

Definition matches_status (status : string) (cat : category) : bool :=
  match cat !! "status" with
  | Some (PStr s) => String.eqb s status
  | _ => false
  end.

(** The sorting stage: [get_sort_value] as key, [reverse] for [desc]. *)
Definition sort_categories (sort_field : string) (order : sort_order)
    (cats : list category) : result (list category) :=
  let reverse := match order with desc => true | asc => false end in
  list_sort (get_sort_value sort_field) reverse cats.

(** [get_file_categories], from the list returned by
    [FileCategory.get_all()] to the page that is serialised. *)
Definition get_file_categories (validated_data : query)
    (all_categories : list category) : result (page category) :=
  filtered ← match nonempty (q_search validated_data) with
             | Some search => filter_search (str_lower search) all_categories
             | None => Return all_categories
             end;
  let filtered :=
    match nonempty (q_status validated_data) with
    | Some status => List.filter (matches_status status) filtered
    | None => filtered
    end in
  sorted ← sort_categories (q_sort validated_data) (q_order validated_data) filtered;
  _paginate_firestore sorted (q_page validated_data) (q_per_page validated_data).
End WithRuntime.

End Categories.

(** ** Firestore index definitions: [validate_indexes], [create_indexes] *)

Module Indexes.

(** Parsed JSON; an object is a dictionary keyed by strings. Numbers
    are the integers. *)
#[warnings="-register-all"]
Inductive json : Type :=
| JNull
| JBool (b : bool)
| JNum (z : Z)
| JStr (s : string)
| JArr (l : list json)
| JObj (m : gmap string json).

(** A field entry of an index definition, and the [api_field]
    dictionary built from it. *)
Abbreviation field_obj := (gmap string json).

(** One entry of the ["indexes"] array of [firestore.indexes.json]: an
    object whose ["fields"], when present, is an array of objects.
    [None] stands for an absent key. *)
Record index_def : Type := IndexDef {
  collectionGroup : option json;
  fields : option (list field_obj);
  queryScope : option json
}.

(** Truth value of [v] in a condition. *)
Definition truthy (v : json) : bool :=
  match v with
  | JNull => false
  | JBool b => b
  | JNum z => negb (z =? 0)
  | JStr s => negb (String.eqb s "")
  | JArr l => match l with [] => false | _ :: _ => true end
  | JObj m => match map_to_list m with [] => false | _ :: _ => true end
  end.

Definition is_str (v : json) (s : string) : bool :=
  match v with
  | JStr x => String.eqb x s
  | _ => false
  end.

(** What the code takes from the Python runtime and its libraries:
    the case mappings of [str], [str()] of a list or dictionary,
    [bytes.decode('utf-8')] ([None] for [UnicodeDecodeError]),
    [json.loads] ([None] for [JSONDecodeError]) and [json.dumps]. *)
Class PyLib : Type := {
  lib_case :: StrCase;
  container_repr : json -> string;
  utf8_decode : string -> option string;
  json_loads : string -> option json;
  json_dumps : json -> string
}.

(** [str(v)], as used by f-strings. *)
Definition py_str `{PyLib} (v : json) : string :=
  match v with
  | JNull => "None"
  | JBool true => "True"
  | JBool false => "False"
  | JNum z => pretty z
  | JStr s => s
  | JArr _ | JObj _ => container_repr v
  end.

(** [a + b] where one operand is known to be a string: defined on two
    strings only. *)
Definition str_concat (a b : json) : result string :=
  match a, b with
  | JStr x, JStr y => Return (x ++ y)%string
  | _, _ => Raise TypeError
  end.

(** [d[k]]. *)
Definition getitem (d : gmap string json) (k : string) : result json :=
  match d !! k with
  | Some v => Return v
  | None => Raise (KeyError k)
  end.

Fixpoint join (sep : string) (parts : list string) : string :=
  match parts with
  | [] => ""
  | [x] => x
  | x :: rest => x ++ sep ++ join sep rest
  end.

Fixpoint chars (s : string) : list json :=
  match s with
  | EmptyString => []
  | String c s' => JStr (String c EmptyString) :: chars s'
  end.

(** [v += s] for a string [s]: concatenation on a string, extension
    by the characters of [s] on a list, [TypeError] otherwise. *)
Definition iadd_str (v : json) (s : string) : result json :=
  match v with
  | JStr x => Return (JStr (x ++ s))
  | JArr l => Return (JArr (l ++ chars s))
  | _ => Raise TypeError
  end.

(** *** [validate_indexes] *)

Record report : Type := Report {
  validation_errors : list string;
  validation_warnings : list string
}.

Definition add_error (msg : string) (r : report) : report :=
  Report (validation_errors r ++ [msg]) (validation_warnings r).

Definition add_warning (msg : string) (r : report) : report :=
  Report (validation_errors r) (validation_warnings r ++ [msg]).

Definition at_index (idx : nat) : string := "Index " ++ pretty idx.

Definition at_field (idx field_idx : nat) : string :=
  "Index " ++ pretty idx ++ ", field " ++ pretty field_idx.

(** The body of the inner loop, for the field at [field_idx]. *)
Definition validate_field (idx field_idx : nat) (field_config : field_obj)
    (r : report) : report :=
  let r :=
    match field_config !! "fieldPath" with
    | None => add_error (at_field idx field_idx ++ ": missing 'fieldPath'") r
    | Some _ => r
    end in
  let has_order := bool_decide (is_Some (field_config !! "order")) in
  let has_array_config :=
    bool_decide (is_Some (field_config !! "arrayConfig")) in
  let r :=
    if negb has_order && negb has_array_config
    then add_error (at_field idx field_idx
                      ++ ": must have either 'order' or 'arrayConfig'") r
    else r in
  let r :=
    if has_order && has_array_config
    then add_warning (at_field idx field_idx
           ++ ": has both 'order' and 'arrayConfig', 'arrayConfig' will be used") r
    else r in
  let r :=
    match field_config !! "order" with
    | Some o =>
        if negb (is_str o "ASCENDING" || is_str o "DESCENDING")
        then add_error (at_field idx field_idx
               ++ ": 'order' must be 'ASCENDING' or 'DESCENDING'") r
        else r
    | None => r
    end in
  match field_config !! "arrayConfig" with
  | Some a =>
      if negb (is_str a "CONTAINS")
      then add_error (at_field idx field_idx
             ++ ": 'arrayConfig' must be 'CONTAINS'") r
      else r
  | None => r
  end.

(** [for field_idx, field_config in enumerate(...)], from [field_idx]. *)
Fixpoint validate_fields (idx field_idx : nat) (fs : list field_obj)
    (r : report) : report :=
  match fs with
  | [] => r
  | field_config :: rest =>
      validate_fields idx (S field_idx) rest
        (validate_field idx field_idx field_config r)
  end.

(** The body of the outer loop, for the definition at [idx]. *)
Definition validate_index (idx : nat) (index_config : index_def)
    (r : report) : report :=
  let r :=
    match collectionGroup index_config with
    | None => add_error (at_index idx ++ ": missing 'collectionGroup' field") r
    | Some _ => r
    end in
  let r :=
    match fields index_config with
    | None | Some [] =>
        add_error (at_index idx ++ ": missing or empty 'fields' array") r
    | Some (_ :: _) => r
    end in
  match fields index_config with
  | Some fs => validate_fields idx 0 fs r
  | None => r
  end.

Fixpoint validate_from (idx : nat) (indexes : list index_def)
    (r : report) : report :=
  match indexes with
  | [] => r
  | index_config :: rest =>
      validate_from (S idx) rest (validate_index idx index_config r)
  end.

(** The JSON answer of [validate_indexes] with its HTTP status. *)
Record validation : Type := Validation {
  is_valid : bool;
  v_status : string;
  total_indexes : nat;
  errors : list string;
  warnings : list string;
  v_code : Z
}.

Definition validate_indexes (indexes : list index_def) : validation :=
  let r := validate_from 0 indexes (Report [] []) in
  let is_valid := (length (validation_errors r) =? 0)%nat in
  Validation is_valid
             (if is_valid then "valid" else "invalid")
             (length indexes)
             (validation_errors r)
             (validation_warnings r)
             (if is_valid then 200 else 400).

(** *** [create_indexes] *)

(** [googleapiclient.errors.HttpError]: the status of the response,
    the raw payload (the exception always has the [content] attribute),
    and [str(e)]. *)
Record http_error : Type := HttpError {
  resp_status : Z;
  content : string;
  http_str : string
}.

(** The body submitted for one index. *)
Record index_body : Type := IndexBody {
  b_queryScope : json;
  b_fields : list field_obj
}.

(** What [create(parent=..., body=...).execute()] does: it returns the
    long-running operation, raises [HttpError], or raises some other
    exception [e], of which only [str(e)] is used. *)
Inductive api_response : Type :=
| Operation (operation : gmap string json)
| RaiseHttpError (e : http_error)
| RaiseException (str_e : string).

(** The Firestore Admin API client; calls may depend on, and change,
    the state of the remote service. *)
Class IndexApi (client : Type) : Type := {
  create_index : client -> string -> index_body -> api_response * client
}.

Inductive status : Type := Skipped | Initiated | Exists | Error.

#[export] Instance status_eq_dec : EqDecision status.
Proof. solve_decision. Defined.

(** One entry of [results]. *)
Record outcome : Type := Outcome {
  o_index : json;
  o_status : status;
  o_detail : json
}.

(** The variables of the loop: [results], [has_errors], and the
    client. *)
Record loop_state (client : Type) : Type := LoopState {
  results : list outcome;
  has_errors : bool;
  api : client
}.
Arguments LoopState {client} _ _ _.
Arguments results {client} _.
Arguments has_errors {client} _.
Arguments api {client} _.

(** The mapping of one JSON field to the API format. *)
Definition to_api_field (field : field_obj) : field_obj :=
  let api_field : gmap string json := ∅ in
  let api_field :=
    match field !! "fieldPath" with
    | Some v => <["fieldPath" := v]> api_field
    | None => api_field
    end in
  let api_field :=
    match field !! "order" with
    | Some v => <["order" := v]> api_field
    | None => api_field
    end in
  match field !! "arrayConfig" with
  | Some v => <["arrayConfig" := v]> api_field
  | None => api_field
  end.

Fixpoint to_api_fields (fs : list field_obj) : list field_obj :=
  match fs with
  | [] => []
  | field :: rest =>
      let api_field := to_api_field field in
      if truthy (JObj api_field)
      then api_field :: to_api_fields rest
      else to_api_fields rest
  end.

(** One element of the comprehension inside [index_name_str]. *)
Definition field_descr (f : field_obj) : result string :=
  match f !! "order" with
  | Some order =>
      path ← getitem f "fieldPath";
      left ← str_concat path (JStr " ");
      str_concat (JStr left) order
  | None =>
      path ← getitem f "fieldPath";
      str_concat path (JStr " ARRAY_CONTAINS")
  end.

Fixpoint field_descrs (api_fields : list field_obj) : result (list string) :=
  match api_fields with
  | [] => Return []
  | f :: rest =>
      d ← field_descr f;
      ds ← field_descrs rest;
      Return (d :: ds)
  end.

Section WithRuntime.
Context `{PyLib} {client : Type} `{IndexApi client}.

Definition index_name_str (collection_id : json) (api_fields : list field_obj)
  : result string :=
  ds ← field_descrs api_fields;
  Return (py_str collection_id ++ " (" ++ join ", " ds ++ ")")%string.

(** The part of the loop body that precedes the [try]: either the
    definition is skipped, or a request is ready with its label. *)
Inductive prepared : Type :=
| Skip (o : outcome)
| Submit (collection_id : json) (body : index_body) (label : string).

Definition prepare (index_def : index_def) : result prepared :=
  match collectionGroup index_def with
  | None =>
      Return (Skip (Outcome (JStr "Unknown") Skipped
                      (JStr "Missing 'collectionGroup' in definition.")))
  | Some collection_id =>
      if negb (truthy collection_id) then
        Return (Skip (Outcome (JStr "Unknown") Skipped
                        (JStr "Missing 'collectionGroup' in definition.")))
      else
        let api_fields := to_api_fields (default [] (fields index_def)) in
        match api_fields with
        | [] =>
            Return (Skip (Outcome collection_id Skipped
                            (JStr "No valid 'fields' defined for index.")))
        | _ :: _ =>
            let body :=
              IndexBody (default (JStr "COLLECTION") (queryScope index_def))
                        api_fields in
            label ← index_name_str collection_id api_fields;
            Return (Submit collection_id body label)
        end
  end.

(** The text of an [HttpError] payload. *)
Definition error_content_of (e : http_error) : result string :=
  match utf8_decode (content e) with
  | Some text => Return text
  | None => Raise UnicodeDecodeError
  end.

(** The test for an index that is already there. *)
Definition already_exists (e : http_error) (error_content : string) : bool :=
  (resp_status e =? 409) || contains "already exists" (str_lower error_content).

(** The detail reported for any other [HttpError]; only
    [JSONDecodeError], [KeyError] and [TypeError] are caught. *)
Definition error_detail_of (e : http_error) (error_content : string)
  : result json :=
  let error_detail := JStr (http_str e) in
  match json_loads error_content with
  | None => Return error_detail
  | Some (JObj payload) =>
      match default (JObj ∅) (payload !! "error") with
      | JObj error_info =>
          let error_detail :=
            default (JStr (http_str e)) (error_info !! "message") in
          match error_info !! "details" with
          | Some details =>
              match iadd_str error_detail
                      (" Details: " ++ json_dumps details) with
              | Return extended => Return extended
              | Raise TypeError => Return error_detail
              | Raise other => Raise other
              end
          | None => Return error_detail
          end
      | _ => Raise AttributeError
      end
  | Some _ => Raise AttributeError
  end.

(** The [try] statement: the call and its three handlers. *)
Definition submit (parent : string) (collection_id : json)
    (body : index_body) (label : string) (st : loop_state client)
  : result (loop_state client) :=
  let '(response, api') :=
    create_index (api st) (parent ++ "/" ++ py_str collection_id) body in
  match response with
  | Operation operation =>
      let name := default JNull (operation !! "name") in
      Return (LoopState
                (results st ++
                   [Outcome (JStr label) Initiated
                            (JStr ("Operation: " ++ py_str name))])
                (has_errors st) api')
  | RaiseHttpError e =>
      error_content ← error_content_of e;
      if already_exists e error_content then
        Return (LoopState
                  (results st ++
                     [Outcome (JStr label) Exists
                              (JStr "Index already exists.")])
                  (has_errors st) api')
      else
        error_detail ← error_detail_of e error_content;
        Return (LoopState
                  (results st ++ [Outcome (JStr label) Error error_detail])
                  true api')
  | RaiseException str_e =>
      Return (LoopState
                (results st ++
                   [Outcome (JStr label) Error
                            (JStr ("Unexpected error: " ++ str_e))])
                true api')
  end.

(** The body of [for index_def in indexes_to_create]. *)
Definition create_index_for (parent : string) (index_def : index_def)
    (st : loop_state client) : result (loop_state client) :=
  p ← prepare index_def;
  match p with
  | Skip o => Return (LoopState (results st ++ [o]) true (api st))
  | Submit collection_id body label =>
      submit parent collection_id body label st
  end.

Fixpoint create_indexes_loop (parent : string)
    (indexes_to_create : list index_def) (st : loop_state client)
  : result (loop_state client) :=
  match indexes_to_create with
  | [] => Return st
  | index_def :: rest =>
      st' ← create_index_for parent index_def st;
      create_indexes_loop parent rest st'
  end.

(** The JSON answer of [create_indexes] with its HTTP status. *)
Record response : Type := Response {
  r_status : string;
  r_results : list outcome;
  r_has_errors : bool;
  r_code : Z
}.

(** [create_indexes], from the parsed ["indexes"] array and the
    built client to the answer. *)
Definition create_indexes (parent : string) (firestore_admin : client)
    (indexes_to_create : list index_def) : result (response * client) :=
  match indexes_to_create with
  | [] => Return (Response "Info" [] false 200, firestore_admin)
  | _ :: _ =>
      st ← create_indexes_loop parent indexes_to_create
             (LoopState [] false firestore_admin);
      Return (Response
                (if has_errors st then "Completed with Errors/Skips"
                 else "Completed")
                (results st)
                (has_errors st)
                (if has_errors st then 207 else 200),
              api st)
  end.
End WithRuntime.

End Indexes.

(** ** [get_indexes_info]: the definitions grouped by collection *)

Module Info.
Import Indexes.

(** The hashable JSON values as dictionary keys. Python identifies
    [True] with [1] and [False] with [0] as keys. *)
Inductive dict_key : Type :=
| DNone
| DNum (z : Z)
| DStr (s : string).

#[export] Instance dict_key_eq_dec : EqDecision dict_key.
Proof. solve_decision. Defined.

#[export] Instance dict_key_countable : Countable dict_key.
Proof.
  refine (inj_countable'
    (fun k => match k with
              | DNone => inl ()
              | DNum z => inr (inl z)
              | DStr s => inr (inr s)
              end)
    (fun x => match x with
              | inl _ => DNone
              | inr (inl z) => DNum z
              | inr (inr s) => DStr s
              end) _).
  by intros [].
Defined.







(** The answer of [get_indexes_info]: the serialised body with status
    200; an exception raised inside the [try], by the grouping or by
    [jsonify], becomes the 500 answer. *)
Inductive info : Type :=
| InfoOk (body : string)
| InfoFailed.


End Info.

(** ** [create_indexes_using_firebase_cli] *)

Module FirebaseCli.

(** What a call of [subprocess.run] can raise: [FileNotFoundError],
    [TimeoutExpired], or another exception [e], of which [str(e)] is
    used. *)
Inductive raised : Type :=
| FileNotFound
| TimeoutExpired
| OtherError (str_e : string).

(** What [subprocess.run] does: the process completes, or the call
    raises. *)
Inductive run_outcome : Type :=
| Completed (returncode : Z) (stdout stderr : string)
| Raised (e : raised).

(** The operating system: running a command may change it. *)
Class Subprocess (world : Type) : Type := {
  run : world -> list string -> run_outcome * world
}.

(** The function returns the success dictionary or raises
    [Exception(message)]. *)
Inductive cli_result : Type :=
| CliSuccess (output : string)
| CliException (message : string).

Definition not_found : string :=
  "Firebase CLI not found. Install it with: npm install -g firebase-tools".

Definition failed (str_e : string) : string :=
  ("Failed to create indexes via Firebase CLI: " ++ str_e)%string.

(** The three [except] clauses. An [Exception] raised inside the [try]
    block is caught by the last one. *)
Definition handle (e : raised) : cli_result :=
  match e with
  | FileNotFound => CliException not_found
  | TimeoutExpired => CliException "Firebase CLI command timed out"
  | OtherError str_e => CliException (failed str_e)
  end.

Definition create_indexes_using_firebase_cli {world} `{Subprocess world}
    (w : world) : cli_result * world :=
  let '(version, w1) := run w ["firebase"; "--version"] in
  match version with
  | Completed returncode _ _ =>
      if negb (returncode =? 0) then (handle (OtherError not_found), w1)
      else
        let '(deploy, w2) :=
          run w1 ["firebase"; "deploy"; "--only"; "firestore:indexes"] in
        match deploy with
        | Completed returncode stdout stderr =>
            if negb (returncode =? 0)
            then (handle (OtherError ("Firebase CLI error: " ++ stderr)), w2)
            else (CliSuccess stdout, w2)
        | Raised e => (handle e, w2)
        end
  | Raised e => (handle e, w1)
  end.

End FirebaseCli.

(** ** The role checks and the file category endpoints *)

Module Crud.
Import Indexes Categories.

(** [require_admin] and [require_superadmin] on the claims of the
    token: [true] when the 403 answer is returned. *)
Definition role_of (claims : gmap string json) : json :=
  default (JStr "user") (claims !! "role").

Definition require_admin (claims : gmap string json) : bool :=
  negb (is_str (role_of claims) "admin" || is_str (role_of claims) "superadmin").

Definition require_superadmin (claims : gmap string json) : bool :=
  negb (is_str (role_of claims) "superadmin").

(** What the handlers read from the request context. *)
Record context : Type := Context {
  claims : gmap string json;
  identity : string;
  remote_addr : option string
}.

Record activity : Type := Activity {
  event_type : string;
  user_id : string;
  description : string;
  ip_address : option string
}.

(** The [FileCategory] and [ActivityLog] models, as far as the
    handlers use them: [code_exists(code, exclude_id)], [get_by_id],
    the constructor followed by [save()], [save()] on a loaded object,
    [delete()], [get_user_count()], [str] of a value that is neither a
    string nor [None], and the saving of a log entry. Their calls are
    taken to return. *)
Class CategoryStore `{Clock} (db : Type) : Type := {
  code_exists : db -> string -> option string -> bool;
  get_by_id : db -> string -> option category;
  construct_and_save :
    db -> string -> pyval -> pyval -> string -> db * category;
  save : db -> category -> db * category;
  delete : db -> category -> db;
  get_user_count : db -> category -> Z;
  value_str : pyval -> string;
  save_activity : db -> activity -> db
}.

Inductive response `{Clock} : Type :=
| Forbidden
| CategoryExists
| CategoryNotFound (category_id : string)
| CategoryInUse (user_count : Z)
| Created (file_category : category)
| Updated (file_category : category)
| Deleted
| Found (file_category : category).

Definition status_code `{Clock} (r : response) : Z :=
  match r with
  | Forbidden => 403
  | CategoryExists => 409
  | CategoryNotFound _ => 404
  | CategoryInUse _ => 400
  | Created _ => 201
  | Updated _ | Deleted | Found _ => 200
  end.

(** Validated [FileCategoryCreateSchema] and [FileCategoryUpdateSchema]
    values. *)
Record create_data : Type := CreateData {
  c_code : string;
  c_name : option string;
  c_description : option string;
  c_status : string
}.

Record update_data : Type := UpdateData {
  u_code : option string;
  u_name : option string;
  u_description : option string;
  u_status : option string
}.

Definition opt_val `{Clock} (o : option string) : pyval :=
  match o with Some s => PStr s | None => PNone end.

Definition nonempty_str (o : option string) : bool :=
  match o with Some s => negb (String.eqb s "") | None => false end.

(** [check_at_least_one_field] of [FileCategoryUpdateSchema]: [false]
    when the validator raises [ValueError] and the request is
    rejected. *)
Definition check_at_least_one_field (validated_data : update_data) : bool :=
  nonempty_str (u_code validated_data)
  || nonempty_str (u_name validated_data)
  || nonempty_str (u_description validated_data)
  || nonempty_str (u_status validated_data).

Section WithStore.
Context `{Clock} `{StrCase} {db : Type} `{!CategoryStore db}.

(** [f'{file_category.code}']. *)
Definition code_text (file_category : category) : result string :=
  match file_category !! "code" with
  | Some (PStr s) => Return s
  | Some PNone => Return "None"
  | Some value => Return (value_str value)
  | None => Raise AttributeError
  end.

Definition create_file_category (ctx : context) (validated_data : create_data)
    (d : db) : result (response * db) :=
  if require_admin (claims ctx) then Return (Forbidden, d) else
  let code := str_upper (c_code validated_data) in
  if code_exists d code None then Return (CategoryExists, d) else
  let name := if nonempty_str (c_name validated_data)
              then opt_val (c_name validated_data) else PStr code in
  let '(d1, file_category) :=
    construct_and_save d code name
      (opt_val (c_description validated_data)) (c_status validated_data) in
  text ← code_text file_category;
  let d2 := save_activity d1
              (Activity "file_category_created" (identity ctx)
                 ("Created file category: " ++ text) (remote_addr ctx)) in
  Return (Created file_category, d2).

Definition get_file_category (category_id : string) (d : db) : response :=
  match get_by_id d category_id with
  | None => CategoryNotFound category_id
  | Some file_category => Found file_category
  end.

Definition update_file_category (ctx : context) (category_id : string)
    (validated_data : update_data) (d : db) : result (response * db) :=
  if require_admin (claims ctx) then Return (Forbidden, d) else
  match get_by_id d category_id with
  | None => Return (CategoryNotFound category_id, d)
  | Some file_category =>
      let code := str_upper (default "" (u_code validated_data)) in
      if nonempty_str (u_code validated_data)
         && code_exists d code (Some category_id)
      then Return (CategoryExists, d) else
      let file_category :=
        if nonempty_str (u_code validated_data)
        then <["code" := PStr code]> file_category else file_category in
      let file_category :=
        match u_name validated_data with
        | Some name => <["name" := PStr name]> file_category
        | None => file_category
        end in
      let file_category :=
        match u_description validated_data with
        | Some text => <["description" := PStr text]> file_category
        | None => file_category
        end in
      let file_category :=
        if nonempty_str (u_status validated_data)
        then <["status" := opt_val (u_status validated_data)]> file_category
        else file_category in
      let '(d1, file_category) := save d file_category in
      text ← code_text file_category;
      let d2 := save_activity d1
                  (Activity "file_category_updated" (identity ctx)
                     ("Updated file category: " ++ text) (remote_addr ctx)) in
      Return (Updated file_category, d2)
  end.

Definition delete_file_category (ctx : context) (category_id : string)
    (d : db) : result (response * db) :=
  if require_admin (claims ctx) then Return (Forbidden, d) else
  match get_by_id d category_id with
  | None => Return (CategoryNotFound category_id, d)
  | Some file_category =>
      let user_count := get_user_count d file_category in
      if 0 <? user_count then Return (CategoryInUse user_count, d) else
      code ← code_text file_category;
      let d1 := delete d file_category in
      let d2 := save_activity d1
                  (Activity "file_category_deleted" (identity ctx)
                     ("Deleted file category: " ++ code) (remote_addr ctx)) in
      Return (Deleted, d2)
  end.
End WithStore.

End Crud.

(* ================================================================== *)
(** * Part II: properties *)
(* ================================================================== *)

Module PaginateFacts.
Import Paginate.

Example paginate_5_by_2_page_3 :
  _paginate_firestore [1; 2; 3; 4; 5] 3 2 = Return (Page [5] 5 3 false true).
Proof. reflexivity. Qed.

Example paginate_5_by_2_page_9 :
  _paginate_firestore [1; 2; 3; 4; 5] 9 2 = Return (Page [] 5 3 false true).
Proof. reflexivity. Qed.

Example paginate_per_page_0 :
  _paginate_firestore [1; 2; 3] 1 0 = Raise ZeroDivisionError.
Proof. reflexivity. Qed.

(** [ceil(a / b)] for a positive divisor, as [-floor(-a / b)]. *)
Definition ceil_div (a b : Z) : Z := - ((- a) / b).

Lemma ceil_div_spec a b :
  0 < b -> (ceil_div a b - 1) * b < a <= ceil_div a b * b.
Proof.
  intros Hb. unfold ceil_div.
  pose proof (Z.mul_div_le (- a) b Hb).
  pose proof (Z.mul_succ_div_gt (- a) b Hb).
  nia.
Qed.

Lemma ceil_div_unique a b q :
  0 < b -> (q - 1) * b < a <= q * b -> q = ceil_div a b.
Proof.
  intros Hb Hq. pose proof (ceil_div_spec a b Hb). nia.
Qed.

(** With non-negative bounds a slice is [drop] followed by [take]. *)
Lemma slice_nonneg {A} (l : list A) (start stop : Z) :
  0 <= start <= stop ->
  slice l start stop =
    take (Z.to_nat (stop - start)) (drop (Z.to_nat start) l).
Proof.
  intros Hb. unfold slice.
  destruct (Z.ltb_spec start 0) as [|_]; [lia|].
  destruct (Z.ltb_spec stop 0) as [|_]; [lia|].
  set (n := Z.of_nat (length l)).
  destruct (Z.le_gt_cases n start) as [Hge|Hlt].
  - rewrite !drop_ge by lia. by rewrite !take_nil.
  - rewrite (Z.min_l start n) by lia.
    destruct (Z.le_gt_cases stop n) as [Hs|Hs].
    + by rewrite (Z.min_l stop n) by lia.
    + rewrite (Z.min_r stop n) by lia.
      rewrite !take_ge; [done | |]; rewrite length_drop; lia.
Qed.

Lemma paginate_returns {A} (l : list A) (page per_page : Z) :
  per_page <> 0 ->
  _paginate_firestore l page per_page =
    Return (Page (slice l ((page - 1) * per_page)
                          ((page - 1) * per_page + per_page))
                 (Z.of_nat (length l))
                 ((Z.of_nat (length l) + per_page - 1) / per_page)
                 ((page - 1) * per_page + per_page <? Z.of_nat (length l))
                 (1 <? page)).
Proof.
  intros Hpp. unfold _paginate_firestore, floordiv.
  destruct (Z.eqb_spec per_page 0); [done|]. reflexivity.
Qed.

(** C4: for a validated query the returned [items] is the window
    [ordered_set[start : start + per_page]] with
    [start = (page - 1) * per_page]; it holds at most [per_page]
    records, exactly [per_page] when that many remain from [start],
    and it is the empty list when [start] lies at or past [total]. *)
Theorem paginate_items_window {A} (l : list A) (page per_page : Z) :
  valid_query page per_page ->
  exists pg,
    _paginate_firestore l page per_page = Return pg /\
    total pg = Z.of_nat (length l) /\
    items pg = take (Z.to_nat per_page)
                    (drop (Z.to_nat ((page - 1) * per_page)) l) /\
    Z.of_nat (length (items pg)) <= per_page /\
    (total pg - (page - 1) * per_page >= per_page ->
       Z.of_nat (length (items pg)) = per_page) /\
    ((page - 1) * per_page >= total pg -> items pg = []).
Proof.
  intros [Hp Hpp]. eexists. split; [apply paginate_returns; lia|]. simpl.
  rewrite slice_nonneg by nia.
  replace ((page - 1) * per_page + per_page - (page - 1) * per_page)
    with per_page by lia.
  repeat split.
  - rewrite length_take, length_drop. lia.
  - intros H. rewrite length_take, length_drop. nia.
  - intros H. rewrite drop_ge by nia. apply take_nil.
Qed.

Lemma paginate_items_window_witness :
  valid_query 2 2 /\
  exists pg,
    _paginate_firestore ["a"; "b"; "c"; "d"; "e"] 2 2 = Return pg /\
    items pg = ["c"; "d"].
Proof.
  split; [unfold valid_query; lia|].
  destruct (paginate_items_window ["a"; "b"; "c"; "d"; "e"] 2 2)
    as (pg & Hr & _ & Hi & _); [unfold valid_query; lia|].
  exists pg. split; [exact Hr | exact Hi].
Defined.

(** C7: for [per_page] in [1, 100] the [pages] entry, computed as
    [(total + per_page - 1) // per_page], is [ceil(total / per_page)],
    and it is [0] exactly when [total] is [0]. *)
Theorem paginate_pages_ceil {A} (l : list A) (page per_page : Z) :
  1 <= per_page <= 100 ->
  exists pg,
    _paginate_firestore l page per_page = Return pg /\
    total pg = Z.of_nat (length l) /\
    pages pg = (total pg + per_page - 1) / per_page /\
    pages pg = ceil_div (total pg) per_page /\
    (pages pg - 1) * per_page < total pg <= pages pg * per_page /\
    (pages pg = 0 <-> total pg = 0).
Proof.
  intros Hpp. eexists. split; [apply paginate_returns; lia|]. simpl.
  set (t := Z.of_nat (length l)).
  assert (Ht : 0 <= t) by (unfold t; lia).
  set (q := (t + per_page - 1) / per_page).
  assert (Hq : (q - 1) * per_page < t <= q * per_page).
  { unfold q.
    pose proof (Z.mul_div_le (t + per_page - 1) per_page ltac:(lia)).
    pose proof (Z.mul_succ_div_gt (t + per_page - 1) per_page ltac:(lia)).
    nia. }
  clearbody q t.
  split; [reflexivity|]. split; [reflexivity|].
  split; [apply ceil_div_unique; lia|].
  split; [exact Hq|]. split; intros H0; nia.
Qed.

Lemma paginate_pages_ceil_witness :
  1 <= 2 <= 100 /\
  exists pg,
    _paginate_firestore ["a"; "b"; "c"; "d"; "e"] 1 2 = Return pg /\
    pages pg = ceil_div 5 2.
Proof.
  split; [lia|].
  destruct (paginate_pages_ceil ["a"; "b"; "c"; "d"; "e"] 1 2)
    as (pg & Hr & Ht & _ & Hc & _); [lia|].
  exists pg. split; [exact Hr|]. rewrite Hc, Ht. reflexivity.
Defined.

(** C10: when the requested page lies past the data,
    [(page - 1) * per_page >= total], the page has no items and
    [has_next] is false, while [has_prev] is [page > 1] whatever the
    data, hence true on such an empty page as soon as [page > 1]. *)
Theorem paginate_past_the_end {A} (l : list A) (page per_page : Z) :
  valid_query page per_page ->
  (page - 1) * per_page >= Z.of_nat (length l) ->
  exists pg,
    _paginate_firestore l page per_page = Return pg /\
    items pg = [] /\
    has_next pg = false /\
    has_prev pg = (1 <? page) /\
    (page > 1 -> has_prev pg = true).
Proof.
  intros [Hp Hpp] Hpast. eexists. split; [apply paginate_returns; lia|].
  simpl. repeat split.
  - rewrite slice_nonneg by nia. rewrite drop_ge by nia. apply take_nil.
  - apply Z.ltb_ge. lia.
  - intros H. apply Z.ltb_lt. lia.
Qed.

Lemma paginate_past_the_end_witness :
  valid_query 4 2 /\
  (4 - 1) * 2 >= Z.of_nat (length ["a"; "b"; "c"]) /\
  exists pg,
    _paginate_firestore ["a"; "b"; "c"] 4 2 = Return pg /\
    items pg = [] /\ has_next pg = false /\ has_prev pg = true.
Proof.
  assert (Hv : valid_query 4 2) by (unfold valid_query; lia).
  assert (Hpast : (4 - 1) * 2 >= Z.of_nat (length ["a"; "b"; "c"]))
    by (simpl; lia).
  split; [exact Hv|]. split; [exact Hpast|].
  destruct (paginate_past_the_end ["a"; "b"; "c"] 4 2 Hv Hpast)
    as (pg & Hr & Hi & Hn & _ & Hprev).
  exists pg. repeat split; try assumption. apply Hprev. lia.
Defined.

End PaginateFacts.

(** ** Stand-ins for the runtime, for concrete runs *)

Module Samples.
Import Categories.

(** The case mappings as they are on ASCII text, for runs on such
    text: the letters A-Z go to a-z, or a-z to A-Z, and every other
    character is kept. *)
Definition lower_ascii (c : ascii) : ascii :=
  let n := nat_of_ascii c in
  if ((65 <=? n) && (n <=? 90))%nat then ascii_of_nat (n + 32) else c.

Fixpoint ascii_lower (s : string) : string :=
  match s with
  | EmptyString => EmptyString
  | String c s' => String (lower_ascii c) (ascii_lower s')
  end.

Definition upper_ascii (c : ascii) : ascii :=
  let n := nat_of_ascii c in
  if ((97 <=? n) && (n <=? 122))%nat then ascii_of_nat (n - 32) else c.

Fixpoint ascii_upper (s : string) : string :=
  match s with
  | EmptyString => EmptyString
  | String c s' => String (upper_ascii c) (ascii_upper s')
  end.

Definition ascii_case : StrCase :=
  {| str_lower := ascii_lower; str_upper := ascii_upper |}.

Lemma Zltb_trans (x y z : Z) :
  (x <? y) = true -> (y <? z) = true -> (x <? z) = true.
Proof. rewrite !Z.ltb_lt. lia. Qed.

Lemma Zltb_total (x y : Z) : (x <? y) = true \/ x = y \/ (y <? x) = true.
Proof. rewrite !Z.ltb_lt. lia. Qed.

(** The datetimes at whole seconds of UTC, each given by its seconds
    since the epoch, which is also what its [timestamp()] returns; the
    numbers are the integers. *)
Definition utc_seconds : Clock :=
  {| number := Z;
     zero := 0;
     number_lt := Z.ltb;
     datetime := Z;
     timestamp := fun d => Return d;
     number_lt_irrefl := Z.ltb_irrefl;
     number_lt_trans := Zltb_trans;
     number_lt_total := Zltb_total |}.

End Samples.

Module CategoriesFacts.
Import Paginate Categories Samples.

(** *** The order on sort keys *)

Section KeyOrder.
Context `{Clock}.

Definition is_str (k : sort_key) : bool :=
  match k with KStr _ => true | _ => false end.

Definition is_num (k : sort_key) : bool :=
  match k with KNum _ => true | _ => false end.

(** A key of the kind [s]: a string for [true], a number for [false]. *)
Definition of_kind (s : bool) (k : sort_key) : bool :=
  if s then is_str k else is_num k.

(** Keys that a sort can handle: all strings, all numbers, or at most
    one key, which is compared with nothing. *)
Definition comparable_keys (keys : list sort_key) : bool :=
  forallb is_str keys || forallb is_num keys || (length keys <=? 1)%nat.

(** A total extension of [key_lt], numbers before strings before the
    objects without ordering; it agrees with [key_lt] wherever
    [key_lt] returns. *)
Definition key_ltb (a b : sort_key) : bool :=
  match a, b with
  | KStr x, KStr y => String.ltb x y
  | KNum x, KNum y => number_lt x y
  | KNum _, (KStr _ | KObj) => true
  | KStr _, KObj => true
  | _, _ => false
  end.

Definition key_le (a b : sort_key) : Prop := key_ltb b a = false.

Lemma key_lt_same_kind s a b :
  of_kind s a = true -> of_kind s b = true ->
  key_lt a b = Return (key_ltb a b).
Proof. destruct s, a, b; simpl; intros; try discriminate; reflexivity. Qed.

Lemma key_lt_other_kind s a b :
  of_kind s b = true -> of_kind s a = false -> key_lt a b = Raise TypeError.
Proof. destruct s, a, b; simpl; intros; try discriminate; reflexivity. Qed.

Lemma key_lt_obj a : key_lt a KObj = Raise TypeError.
Proof. by destruct a. Qed.

Lemma string_ltb_lt x y : String.ltb x y = true <-> String_as_OT.lt x y.
Proof.
  rewrite <- String_as_OT.cmp_lt. unfold String.ltb, String_as_OT.cmp.
  destruct (String.compare x y); split; intros E; congruence.
Qed.

Lemma string_ltb_irrefl x : String.ltb x x = false.
Proof.
  destruct (String.ltb x x) eqn:E; [|reflexivity].
  apply string_ltb_lt in E.
  exfalso. exact (String_as_OT.lt_not_eq _ _ E Logic.eq_refl).
Qed.

Lemma string_ltb_trans x y z :
  String.ltb x y = true -> String.ltb y z = true -> String.ltb x z = true.
Proof.
  rewrite !string_ltb_lt. apply String_as_OT.lt_trans.
Qed.

Lemma string_ltb_total x y :
  String.ltb x y = true \/ x = y \/ String.ltb y x = true.
Proof.
  unfold String.ltb. rewrite (String.compare_antisym y x).
  destruct (String.compare x y) eqn:E; simpl; auto.
  right; left. by apply String.compare_eq_iff.
Qed.

Lemma key_ltb_irrefl a : key_ltb a a = false.
Proof.
  destruct a; simpl;
    [apply string_ltb_irrefl | apply number_lt_irrefl | reflexivity].
Qed.

Lemma key_ltb_trans a b c :
  key_ltb a b = true -> key_ltb b c = true -> key_ltb a c = true.
Proof.
  destruct a, b, c; simpl; try congruence.
  - apply string_ltb_trans.
  - apply number_lt_trans.
Qed.

Lemma key_ltb_total a b :
  key_ltb a b = true \/ a = b \/ key_ltb b a = true.
Proof.
  destruct a as [x|x|], b as [y|y|]; simpl; auto.
  - destruct (string_ltb_total x y) as [E|[E|E]]; auto.
    right; left; congruence.
  - destruct (number_lt_total x y) as [E|[E|E]]; auto.
    right; left; congruence.
Qed.

Lemma key_ltb_asym a b : key_ltb a b = true -> key_ltb b a = false.
Proof.
  intros E. destruct (key_ltb b a) eqn:E'; [|reflexivity].
  pose proof (key_ltb_trans _ _ _ E E') as Hc.
  rewrite key_ltb_irrefl in Hc. discriminate.
Qed.

(** [a < b] and [b <= c] give [a < c]. *)
Lemma key_ltb_le_trans a b c :
  key_ltb a b = true -> key_le b c -> key_ltb a c = true.
Proof.
  unfold key_le. intros Hab Hbc.
  destruct (key_ltb_total b c) as [E|[E|E]].
  - eapply key_ltb_trans; eauto.
  - by subst.
  - congruence.
Qed.

Lemma key_le_trans a b c : key_le a b -> key_le b c -> key_le a c.
Proof.
  unfold key_le. intros Hab Hbc.
  destruct (key_ltb c a) eqn:E; [|reflexivity].
  pose proof (key_ltb_le_trans _ _ _ E Hab) as E'. congruence.
Qed.

Lemma key_le_antisym a b : key_le a b -> key_le b a -> a = b.
Proof.
  unfold key_le. intros Hab Hba.
  destruct (key_ltb_total a b) as [E|[E|E]]; congruence.
Qed.
End KeyOrder.

(** *** The insertion sort on comparable keys *)

Section InsertionSort.
Context `{Clock} {A : Type}.
Implicit Types (x y : sort_key * A) (l acc todo : list (sort_key * A)).

Definition has_key (k : sort_key) x : bool := bool_decide (x.1 = k).
Definition entry_le x y : Prop := key_le x.1 y.1.
Definition same_kind (s : bool) x : Prop := of_kind s x.1 = true.

(** The exception-free reading of [insert] under [key_ltb]. *)
Fixpoint pinsert x acc : list (sort_key * A) :=
  match acc with
  | [] => [x]
  | y :: ys => if key_ltb x.1 y.1 then x :: y :: ys else y :: pinsert x ys
  end.

Fixpoint pinsert_all acc todo : list (sort_key * A) :=
  match todo with
  | [] => acc
  | x :: xs => pinsert_all (pinsert x acc) xs
  end.

Lemma pinsert_perm x acc : Permutation (x :: acc) (pinsert x acc).
Proof.
  induction acc as [|y ys IH]; simpl; [done|].
  destruct (key_ltb x.1 y.1); [done|].
  rewrite perm_swap. by constructor.
Qed.

Lemma pinsert_all_perm acc todo :
  Permutation (acc ++ todo) (pinsert_all acc todo).
Proof.
  revert acc. induction todo as [|x xs IH]; intros acc; simpl.
  - by rewrite app_nil_r.
  - rewrite <- IH, <- pinsert_perm. simpl.
    symmetry. apply Permutation_middle.
Qed.

Lemma insert_pure s x acc :
  same_kind s x -> Forall (same_kind s) acc ->
  insert x acc = Return (pinsert x acc).
Proof.
  intros Hx. induction 1 as [|y ys Hy Hys IH]; simpl; [done|].
  rewrite (key_lt_same_kind s) by done.
  simpl. destruct (key_ltb x.1 y.1); [done|]. by rewrite IH.
Qed.

Lemma insert_all_pure s acc todo :
  Forall (same_kind s) acc -> Forall (same_kind s) todo ->
  insert_all acc todo = Return (pinsert_all acc todo).
Proof.
  intros Hacc Htodo. revert acc Hacc.
  induction Htodo as [|x xs Hx Hxs IH]; intros acc Hacc; simpl; [done|].
  rewrite (insert_pure s) by done. simpl. apply IH.
  eapply Permutation_Forall; [apply pinsert_perm|]. by constructor.
Qed.

Lemma pinsert_sorted x acc :
  StronglySorted entry_le acc -> StronglySorted entry_le (pinsert x acc).
Proof.
  induction 1 as [|y ys Hs IH Hy]; simpl.
  - repeat constructor.
  - destruct (key_ltb x.1 y.1) eqn:E.
    + assert (Hxy : entry_le x y) by (by apply key_ltb_asym).
      constructor; [by constructor|]. constructor; [done|].
      eapply List.Forall_impl; [|exact Hy]. intros z Hz.
      by apply (key_le_trans _ y.1).
    + constructor; [done|].
      eapply Permutation_Forall; [apply pinsert_perm|]. by constructor.
Qed.

Lemma pinsert_all_sorted acc todo :
  StronglySorted entry_le acc ->
  StronglySorted entry_le (pinsert_all acc todo).
Proof.
  revert acc. induction todo as [|x xs IH]; intros acc Hs; simpl; [done|].
  by apply IH, pinsert_sorted.
Qed.

(** Stability of one insertion: among the entries with a given key
    the new entry comes last. *)
Lemma filter_none (P : sort_key * A -> bool) l :
  Forall (fun z => P z = false) l -> List.filter P l = [].
Proof.
  induction 1 as [|z zs Hz Hzs IH]; simpl; [done|]. by rewrite Hz.
Qed.

Lemma filter_step (P : sort_key * A -> bool) z l :
  List.filter P (z :: l) =
    if P z then z :: List.filter P l else List.filter P l.
Proof. reflexivity. Qed.

Lemma pinsert_filter k x acc :
  StronglySorted entry_le acc ->
  List.filter (has_key k) (pinsert x acc) =
    List.filter (has_key k) acc ++ List.filter (has_key k) [x].
Proof.
  induction 1 as [|y ys Hs IH Hy]; [done|].
  cbn [pinsert]. destruct (key_ltb x.1 y.1) eqn:E.
  - destruct (has_key k x) eqn:Hk.
    + assert (Hnone : List.filter (has_key k) (y :: ys) = []).
      { apply filter_none.
        assert (Hgt : Forall (fun z => key_ltb x.1 z.1 = true) (y :: ys)).
        { constructor; [done|].
          eapply List.Forall_impl; [|exact Hy]. intros z Hz.
          by apply (key_ltb_le_trans _ y.1). }
        eapply List.Forall_impl; [|exact Hgt]. intros z Hz.
        unfold has_key in *. apply bool_decide_eq_true in Hk.
        apply bool_decide_eq_false. intros Hzk.
        rewrite Hk, <- Hzk, key_ltb_irrefl in Hz. discriminate. }
      rewrite Hnone, (filter_step _ x (y :: ys)), (filter_step _ x []).
      by rewrite Hk, Hnone.
    + rewrite (filter_step _ x (y :: ys)), (filter_step _ x []), Hk.
      by rewrite app_nil_r.
  - rewrite (filter_step _ y (pinsert x ys)), (filter_step _ y ys), IH.
    by destruct (has_key k y).
Qed.

Lemma pinsert_all_filter k acc todo :
  StronglySorted entry_le acc ->
  List.filter (has_key k) (pinsert_all acc todo) =
    List.filter (has_key k) acc ++ List.filter (has_key k) todo.
Proof.
  revert acc. induction todo as [|x xs IH]; intros acc Hs; simpl.
  - by rewrite app_nil_r.
  - rewrite IH by (by apply pinsert_sorted).
    rewrite pinsert_filter by done. rewrite <- app_assoc. f_equal.
    rewrite (filter_step _ x []). by destruct (has_key k x).
Qed.

Lemma insert_mixed s x y acc :
  same_kind s y -> ~ same_kind s x ->
  insert x (y :: acc) = Raise TypeError.
Proof.
  unfold same_kind. intros Hy Hx. simpl.
  rewrite (key_lt_other_kind s); [done | done |].
  by destruct (of_kind s x.1).
Qed.

Lemma pinsert_nonempty x acc : exists y ys, pinsert x acc = y :: ys.
Proof.
  destruct acc as [|y ys]; simpl; [by eauto|].
  destruct (key_ltb x.1 y.1); eauto.
Qed.

(** Once the sorted prefix is non-empty, one entry of the other
    kind among those still to insert makes the pass raise. *)
Lemma insert_all_mixed s y acc todo :
  Forall (same_kind s) (y :: acc) -> ~ Forall (same_kind s) todo ->
  insert_all (y :: acc) todo = Raise TypeError.
Proof.
  revert y acc. induction todo as [|x xs IH]; intros y acc Hacc Htodo.
  - destruct Htodo. constructor.
  - cbn [insert_all].
    destruct (decide (of_kind s x.1 = true)) as [Hx|Hx].
    + rewrite (insert_pure s) by done.
      destruct (pinsert_nonempty x (y :: acc)) as (y' & ys' & E).
      rewrite E. simpl. apply IH.
      * rewrite <- E. eapply Permutation_Forall; [apply pinsert_perm|].
        by constructor.
      * intros Hxs. apply Htodo. by constructor.
    + inversion Hacc; subst. by rewrite (insert_mixed s).
Qed.

(** An object without ordering at the head of the sorted prefix makes
    the next insertion raise. *)
Lemma insert_all_obj y x todo :
  y.1 = KObj -> insert_all [y] (x :: todo) = Raise TypeError.
Proof. intros Hy. simpl. by rewrite Hy, key_lt_obj. Qed.
End InsertionSort.

(** *** The sort proper, on a list decorated with its keys *)

Section SortKeyedFacts.
Context `{Clock} {A : Type} (key : A -> sort_key).
Implicit Types (l m r : list A).

Definition dec (x : A) : sort_key * A := (key x, x).

(** Equal-key selection: the records of [l] whose key is [k], in
    the order in which they occur in [l]. *)
Definition with_key_of (k : sort_key) l : list A :=
  List.filter (fun x => bool_decide (key x = k)) l.

(** The order a sort direction asks for between a record and any
    later one. *)
Definition in_order_of (reverse : bool) (a b : A) : Prop :=
  if reverse then key_le (key b) (key a) else key_le (key a) (key b).

Lemma undec l : map snd (map dec l) = l.
Proof. rewrite List.map_map. simpl. apply List.map_id. Qed.

Lemma forallb_kind s l :
  forallb (of_kind s) (map key l) = true <-> Forall (same_kind s) (map dec l).
Proof.
  rewrite forallb_forall, List.Forall_forall. unfold same_kind. split.
  - intros Hall [k x] Hin. apply in_map_iff in Hin as (y & [= <- <-] & Hy).
    simpl. apply Hall. by apply in_map.
  - intros Hall k Hin. apply in_map_iff in Hin as (y & <- & Hy).
    apply (Hall (dec y)). by apply in_map.
Qed.

Lemma comparable_cases l :
  comparable_keys (map key l) = true <->
  (exists s, Forall (same_kind s) (map dec l)) \/ (length l <= 1)%nat.
Proof.
  unfold comparable_keys. rewrite !orb_true_iff, Nat.leb_le, length_map.
  change is_str with (of_kind true). change is_num with (of_kind false).
  rewrite !forallb_kind. split.
  - intros [[Hs|Hn]|Hl]; eauto.
  - intros [[[] Hs]|Hl]; auto.
Qed.

Lemma comparable_perm l m :
  Permutation l m ->
  comparable_keys (map key l) = comparable_keys (map key m).
Proof.
  intros Hp. apply eq_true_iff_eq. rewrite !comparable_cases.
  rewrite (Permutation_length Hp).
  assert (Hk : forall s, Forall (same_kind s) (map dec l) <->
                         Forall (same_kind s) (map dec m)).
  { intros s. split; apply Permutation_Forall;
      [|symmetry]; by apply Permutation_map. }
  split; (intros [[s Hs]|Hl]; [left; exists s; by apply Hk | by right]).
Qed.

Lemma comparable_rev l :
  comparable_keys (map key (rev l)) = comparable_keys (map key l).
Proof. apply comparable_perm. symmetry. apply Permutation_rev. Qed.

Lemma sorted_undec l :
  StronglySorted entry_le (map dec l) ->
  StronglySorted (in_order_of false) l.
Proof.
  induction l as [|a l IH]; simpl; intros Hs; [constructor|].
  apply StronglySorted_inv in Hs as [Hs Ha].
  constructor; [by apply IH|].
  apply List.Forall_forall. intros b Hb.
  rewrite List.Forall_forall in Ha.
  apply (Ha (dec b)). by apply in_map.
Qed.

Lemma sorted_app (R : A -> A -> Prop) l m :
  StronglySorted R l -> StronglySorted R m ->
  (forall a b, In a l -> In b m -> R a b) ->
  StronglySorted R (l ++ m).
Proof.
  induction 1 as [|a l Hs IH Ha]; simpl; intros Hm Hlm; [done|].
  constructor.
  - apply IH; [done|]. intros; apply Hlm; simpl; auto.
  - apply Forall_app. split; [done|].
    apply List.Forall_forall. intros b Hb. apply Hlm; simpl; auto.
Qed.

Lemma sorted_rev l :
  StronglySorted (in_order_of false) l ->
  StronglySorted (in_order_of true) (rev l).
Proof.
  induction 1 as [|a l Hs IH Ha]; simpl; [constructor|].
  apply sorted_app; [done | repeat constructor |].
  intros b c Hb [<-|[]]. apply in_rev in Hb.
  rewrite List.Forall_forall in Ha. exact (Ha b Hb).
Qed.

(** On comparable keys no comparison of the pass raises. *)
Lemma insert_all_comparable m :
  comparable_keys (map key m) = true ->
  insert_all [] (map dec m) = Return (pinsert_all [] (map dec m)).
Proof.
  intros Hc. apply comparable_cases in Hc as [[s Hs]|Hl].
  - apply (insert_all_pure s); [constructor | done].
  - destruct m as [|x [|y m]]; simpl in *; try reflexivity. lia.
Qed.

(** The ascending pass on comparable keys: it returns, and its
    result is a sorted, stable rearrangement of its input. *)
Lemma insert_all_spec m :
  comparable_keys (map key m) = true ->
  exists m',
    insert_all [] (map dec m) = Return (map dec m') /\
    Permutation m m' /\
    StronglySorted (in_order_of false) m' /\
    (forall k, with_key_of k m' = with_key_of k m).
Proof.
  intros Hc.
  pose proof (pinsert_all_perm [] (map dec m)) as Hp. simpl in Hp.
  symmetry in Hp. apply Permutation_map_inv in Hp as (m' & Hm' & Hp).
  exists m'. split; [|split; [|split]].
  - rewrite (insert_all_comparable m Hc). by rewrite Hm'.
  - done.
  - apply sorted_undec. rewrite <- Hm'.
    apply pinsert_all_sorted. constructor.
  - intros k.
    pose proof (pinsert_all_filter k [] (map dec m)
                  (SSorted_nil _)) as Hf.
    rewrite Hm' in Hf. simpl in Hf.
    rewrite !filter_map_swap in Hf.
    apply (f_equal (map snd)) in Hf. by rewrite !undec in Hf.
Qed.

Lemma sort_keyed_spec (reverse : bool) l :
  comparable_keys (map key l) = true ->
  exists r,
    sort_keyed reverse (map dec l) = Return r /\
    Permutation l r /\
    StronglySorted (in_order_of reverse) r /\
    (forall k, with_key_of k r = with_key_of k l).
Proof.
  intros Hc. unfold sort_keyed. destruct reverse.
  - rewrite <- map_rev.
    destruct (insert_all_spec (rev l)) as (m' & Hr & Hp & Hs & Hk);
      [by rewrite comparable_rev|].
    exists (rev m'). rewrite Hr. simpl.
    rewrite <- map_rev, undec. split; [done|]. split; [|split].
    + rewrite <- Permutation_rev. rewrite <- Hp. apply Permutation_rev.
    + by apply sorted_rev.
    + intros k. unfold with_key_of in *.
      rewrite filter_rev, Hk, filter_rev. apply rev_involutive.
  - destruct (insert_all_spec l Hc) as (m' & Hr & Hp & Hs & Hk).
    exists m'. rewrite Hr. simpl. by rewrite undec.
Qed.

Lemma insert_all_raises m :
  comparable_keys (map key m) = false ->
  insert_all [] (map dec m) = Raise TypeError.
Proof.
  intros Hc.
  assert (Hno : forall s, ~ Forall (same_kind s) (map dec m)).
  { intros s Hs. rewrite (proj2 (comparable_cases m)) in Hc; [done|].
    left. by exists s. }
  assert (Hlen : ~ (length m <= 1)%nat).
  { intros Hl. rewrite (proj2 (comparable_cases m)) in Hc; [done|].
    by right. }
  destruct m as [|x [|y m]]; simpl in Hlen; try lia.
  destruct (key x) as [sx|nx|] eqn:Hx.
  - change (insert_all [dec x] (map dec (y :: m)) = Raise TypeError).
    apply (insert_all_mixed true).
    + repeat constructor. unfold same_kind. simpl. by rewrite Hx.
    + intros Hrest. apply (Hno true). constructor; [|done].
      unfold same_kind. simpl. by rewrite Hx.
  - change (insert_all [dec x] (map dec (y :: m)) = Raise TypeError).
    apply (insert_all_mixed false).
    + repeat constructor. unfold same_kind. simpl. by rewrite Hx.
    + intros Hrest. apply (Hno false). constructor; [|done].
      unfold same_kind. simpl. by rewrite Hx.
  - change (insert_all [dec x] (dec y :: map dec m) = Raise TypeError).
    by apply insert_all_obj.
Qed.

(** On keys that are not mutually comparable the sort raises. *)
Lemma sort_keyed_raises (reverse : bool) l :
  comparable_keys (map key l) = false ->
  sort_keyed reverse (map dec l) = Raise TypeError.
Proof.
  intros Hc. unfold sort_keyed. destruct reverse.
  - rewrite <- map_rev, insert_all_raises; [done|].
    by rewrite comparable_rev.
  - by rewrite insert_all_raises.
Qed.

Lemma sort_keyed_returned (reverse : bool) l r :
  sort_keyed reverse (map dec l) = Return r ->
  comparable_keys (map key l) = true /\
  Permutation l r /\
  StronglySorted (in_order_of reverse) r /\
  (forall k, with_key_of k r = with_key_of k l).
Proof.
  intros Hr. destruct (comparable_keys (map key l)) eqn:Hc.
  - split; [done|].
    destruct (sort_keyed_spec reverse l Hc) as (r' & Hr' & Hfacts).
    rewrite Hr in Hr'. by injection Hr' as <-.
  - rewrite (sort_keyed_raises reverse l Hc) in Hr. discriminate.
Qed.
End SortKeyedFacts.

(** *** [list.sort] with a key function that can raise *)

Section ListSortFacts.
Context `{Clock} {A : Type} (key : A -> result sort_key).
Implicit Types (l m r : list A).

(** The key of a record for which the key function returns. *)
Definition key_of (x : A) : sort_key :=
  match key x with
  | Return k => k
  | Raise _ => KStr ""
  end.

Definition keys_return l : Prop := Forall (fun x => key x = Return (key_of x)) l.

(** Equal-key selection: the records of [l] whose key is [k], in
    the order in which they occur in [l]. *)
Definition with_key (k : sort_key) l : list A :=
  List.filter (fun x => bool_decide (key x = Return k)) l.

(** The order a sort direction asks for between a record and any
    later one: [asc] wants no later key below an earlier one, [desc]
    no later key above an earlier one. *)
Definition in_order (reverse : bool) (a b : A) : Prop :=
  forall ka kb, key a = Return ka -> key b = Return kb ->
    if reverse then key_le kb ka else key_le ka kb.

Lemma key_of_returned x k : key x = Return k -> key_of x = k.
Proof. unfold key_of. by intros ->. Qed.

Lemma keys_return_perm l m : Permutation l m -> keys_return l -> keys_return m.
Proof. apply Permutation_Forall. Qed.

Lemma decorate_pure l :
  keys_return l -> decorate key l = Return (map (dec key_of) l).
Proof.
  induction 1 as [|x l Hx Hl IH]; simpl; [done|].
  rewrite Hx. simpl. by rewrite IH.
Qed.

Lemma decorate_returned l keyed :
  decorate key l = Return keyed ->
  keys_return l /\ keyed = map (dec key_of) l.
Proof.
  revert keyed. induction l as [|x l IH]; simpl; intros keyed Hd.
  - injection Hd as <-. split; [constructor | done].
  - destruct (key x) as [k|e] eqn:Hk; simpl in Hd; [|discriminate].
    destruct (decorate key l) as [rest|e]; simpl in Hd; [|discriminate].
    injection Hd as <-. destruct (IH rest Logic.eq_refl) as [Hl ->].
    split.
    + constructor; [|done]. cbv beta. rewrite Hk. f_equal.
      symmetry. by apply key_of_returned.
    + change (map (dec key_of) (x :: l))
        with (dec key_of x :: map (dec key_of) l).
      f_equal. unfold dec, key_of. by rewrite Hk.
Qed.

(** An exception of the sort that is not a failed comparison comes
    from the key function. *)
Lemma decorate_raised l e :
  decorate key l = Raise e -> exists x, In x l /\ key x = Raise e.
Proof.
  induction l as [|x l IH]; simpl; [discriminate|].
  destruct (key x) as [k|e'] eqn:Hk; simpl.
  - destruct (decorate key l) as [rest|e'']; simpl; [discriminate|].
    intros [= <-]. destruct (IH Logic.eq_refl) as (y & Hy & Hr).
    exists y. auto.
  - intros [= <-]. exists x. auto.
Qed.

Lemma keys_of l keys :
  Forall2 (fun x k => key x = Return k) l keys ->
  keys_return l /\ keys = map key_of l.
Proof.
  induction 1 as [|x k l keys Hx Hl [IH1 IH2]]; [by split; constructor|].
  split.
  - constructor; [|done]. cbv beta. rewrite Hx. f_equal.
    symmetry. by apply key_of_returned.
  - simpl. by rewrite (key_of_returned x k Hx), IH2.
Qed.

Lemma with_key_pure k l :
  keys_return l -> with_key k l = with_key_of key_of k l.
Proof.
  unfold with_key, with_key_of.
  induction 1 as [|x l Hx Hl IH]; simpl; [done|].
  rewrite IH.
  assert (E : bool_decide (key x = Return k) = bool_decide (key_of x = k)).
  { apply bool_decide_ext. split; [apply key_of_returned|].
    intros <-. exact Hx. }
  by rewrite E.
Qed.

Lemma in_order_pure reverse a b :
  in_order_of key_of reverse a b -> in_order reverse a b.
Proof.
  unfold in_order_of, in_order. intros Hab ka kb Ha Hb.
  by rewrite <- (key_of_returned a ka Ha), <- (key_of_returned b kb Hb).
Qed.

Lemma sorted_pure reverse l :
  StronglySorted (in_order_of key_of reverse) l ->
  StronglySorted (in_order reverse) l.
Proof.
  induction 1 as [|a l Hs IH Ha]; constructor; [done|].
  eapply List.Forall_impl; [|exact Ha]. intros b. apply in_order_pure.
Qed.

Lemma list_sort_pure reverse l :
  keys_return l ->
  list_sort key reverse l = sort_keyed reverse (map (dec key_of) l).
Proof. intros Hl. unfold list_sort. by rewrite (decorate_pure l Hl). Qed.

(** What a returned sort result is, in terms of [key_of]. *)
Lemma list_sort_returned_pure reverse l r :
  list_sort key reverse l = Return r ->
  keys_return l /\
  comparable_keys (map key_of l) = true /\
  Permutation l r /\
  StronglySorted (in_order_of key_of reverse) r /\
  (forall k, with_key_of key_of k r = with_key_of key_of k l).
Proof.
  unfold list_sort. intros Hr.
  destruct (decorate key l) as [keyed|e] eqn:Hd; simpl in Hr; [|discriminate].
  destruct (decorate_returned l keyed Hd) as [Hl ->].
  split; [done|]. by apply sort_keyed_returned.
Qed.

(** What a returned sort result is. *)
Lemma list_sort_returned reverse l r :
  list_sort key reverse l = Return r ->
  Permutation l r /\
  StronglySorted (in_order reverse) r /\
  (forall k, with_key k r = with_key k l).
Proof.
  intros Hr.
  destruct (list_sort_returned_pure reverse l r Hr) as (Hl & _ & Hp & Hs & Hk).
  split; [done|]. split; [by apply sorted_pure|].
  intros k. rewrite !with_key_pure; [apply Hk | done |].
  by apply (keys_return_perm l r).
Qed.

(** When every key is computed and the keys are comparable the sort
    returns. *)
Lemma list_sort_returns reverse l keys :
  Forall2 (fun x k => key x = Return k) l keys ->
  comparable_keys keys = true ->
  exists r, list_sort key reverse l = Return r.
Proof.
  intros Hk Hc. destruct (keys_of l keys Hk) as [Hl ->].
  rewrite (list_sort_pure reverse l Hl).
  destruct (sort_keyed_spec key_of reverse l Hc) as (r & Hr & _).
  by exists r.
Qed.

(** When every key is computed and the keys are not comparable the
    sort raises [TypeError]. *)
Lemma list_sort_raises reverse l keys :
  Forall2 (fun x k => key x = Return k) l keys ->
  comparable_keys keys = false ->
  list_sort key reverse l = Raise TypeError.
Proof.
  intros Hk Hc. destruct (keys_of l keys Hk) as [Hl ->].
  rewrite (list_sort_pure reverse l Hl). by apply sort_keyed_raises.
Qed.

(** An exception of the key function leaves the sort. *)
Lemma list_sort_key_raises reverse l e :
  decorate key l = Raise e -> list_sort key reverse l = Raise e.
Proof. intros Hd. unfold list_sort. by rewrite Hd. Qed.
End ListSortFacts.

(** *** The sorting stage of [get_file_categories] *)

Definition is_desc (order : sort_order) : bool :=
  match order with desc => true | asc => false end.

Definition cat_of `{Clock} (code : string) (created : pyval) : category :=
  <["code" := PStr code]> (<["created_date" := created]> ∅).

Definition undated `{Clock} : category := cat_of "W2" PNone.

Section SortStage.
Context `{Clock}.
Implicit Types (cats : list category).

(** The key function raises only what [timestamp()] raises. *)
Lemma get_sort_value_raised sort_field c e :
  get_sort_value sort_field c = Raise e ->
  exists d, c !! sort_field = Some (PDatetime d) /\ timestamp d = Raise e.
Proof.
  unfold get_sort_value.
  destruct (c !! sort_field) as [[|s|x|d|b]|]; simpl; try discriminate.
  destruct (timestamp d) as [t|e'] eqn:Ht; simpl; [discriminate|].
  intros [= <-]. by exists d.
Qed.

Lemma get_sort_value_datetime sort_field c d :
  c !! sort_field = Some (PDatetime d) ->
  get_sort_value sort_field c = (t ← timestamp d; Return (KNum t)).
Proof. unfold get_sort_value. by intros ->. Qed.

Lemma get_sort_value_null sort_field c :
  c !! sort_field = Some PNone \/ c !! sort_field = None ->
  get_sort_value sort_field c = Return (KStr "").
Proof. unfold get_sort_value. by intros [-> | ->]. Qed.

(** A list that holds a number key and a string key is not
    comparable. *)
Lemma comparable_two_kinds {A} (key : A -> sort_key) (l : list A) a b :
  In a l -> In b l -> is_num (key a) = true -> is_str (key b) = true ->
  comparable_keys (map key l) = false.
Proof.
  intros Ha Hb Hna Hsb. apply not_true_iff_false. intros Hc.
  apply comparable_cases in Hc as [[s Hs]|Hl].
  - rewrite List.Forall_forall in Hs.
    pose proof (Hs (dec key a) (in_map _ _ _ Ha)) as Ka.
    pose proof (Hs (dec key b) (in_map _ _ _ Hb)) as Kb.
    unfold same_kind in *. simpl in *.
    destruct s, (key a), (key b); simpl in *; discriminate.
  - destruct l as [|x [|y l]]; simpl in *; try lia; try done.
    destruct Ha as [->|[]], Hb as [->|[]].
    destruct (key b); discriminate.
Qed.

(** A record with a [datetime] in the sort field next to one where the
    field is [None] or absent makes the sort raise, whatever else the
    list holds: [TypeError], unless a call of [timestamp()] has raised
    before. *)
Lemma sort_null_next_to_timestamp_raises sort_field order cats c1 c2 d :
  In c1 cats -> In c2 cats ->
  c1 !! sort_field = Some (PDatetime d) ->
  c2 !! sort_field = Some PNone \/ c2 !! sort_field = None ->
  exists e,
    sort_categories sort_field order cats = Raise e /\
    ((forall c d', In c cats -> c !! sort_field = Some (PDatetime d') ->
                   exists t, timestamp d' = Return t) ->
     e = TypeError).
Proof.
  intros H1 H2 Hd Hn. unfold sort_categories, list_sort.
  destruct (decorate (get_sort_value sort_field) cats) as [keyed|e] eqn:Hk;
    simpl.
  - exists TypeError. split; [|done].
    destruct (decorate_returned _ _ _ Hk) as [Hl ->].
    apply sort_keyed_raises.
    unfold keys_return in Hl. rewrite List.Forall_forall in Hl.
    apply (comparable_two_kinds _ cats c1 c2 H1 H2).
    + pose proof (Hl c1 H1) as K1.
      rewrite (get_sort_value_datetime _ _ _ Hd) in K1.
      destruct (timestamp d); simpl in K1; [|discriminate].
      by injection K1 as <-.
    + pose proof (Hl c2 H2) as K2.
      rewrite (get_sort_value_null _ _ Hn) in K2. by injection K2 as <-.
  - exists e. split; [done|]. intros Hall.
    destruct (decorate_raised _ _ _ Hk) as (c & Hc & Hr).
    apply get_sort_value_raised in Hr as (d' & Hd' & Hr).
    destruct (Hall c d' Hc Hd') as [t Ht]. congruence.
Qed.
End SortStage.

(** *** Sample records, on the clock of whole UTC seconds *)

(** 2024-01-01 and 2025-01-01, 00:00:00 UTC. *)
Definition t2024 : @pyval utc_seconds := @PDatetime utc_seconds 1704067200.
Definition t2025 : @pyval utc_seconds := @PDatetime utc_seconds 1735689600.

Definition k2024 : @sort_key utc_seconds := @KNum utc_seconds 1704067200.
Definition k2025 : @sort_key utc_seconds := @KNum utc_seconds 1735689600.

Definition dated : gmap string (@pyval utc_seconds) := cat_of "CHECKS" t2024.

Definition tied_cats : list (gmap string (@pyval utc_seconds)) :=
  [cat_of "x" t2024; cat_of "y" t2025; cat_of "z" t2024].

Example sort_by_code_desc :
  sort_categories "code" desc
    [cat_of "b" PNone; cat_of "a" PNone; cat_of "c" PNone]
  = Return [cat_of "c" PNone; cat_of "b" PNone;
            @cat_of utc_seconds "a" PNone].
Proof. vm_compute. reflexivity. Qed.

Example sort_by_created_date_ties :
  sort_categories "created_date" desc tied_cats
  = Return [cat_of "y" t2025; cat_of "x" t2024; cat_of "z" t2024].
Proof. vm_compute. reflexivity. Qed.

(** C5: the sort stage does raise. A record whose [created_date] is
    [None] gets the key [''], not the epoch [0]: the test for a null
    value sits inside the [isinstance(value, datetime)] branch, which a
    null never enters. Next to a record that carries a [datetime],
    whose key is the number that [timestamp()] returns, the keys are a
    string and a number, and [list.sort] raises [TypeError], in both
    directions and through the whole endpoint; so it is for the records
    dated 2024-01-01 and undated. *)
Theorem sort_null_timestamp_raises :
  (forall (clock : Clock) (case : StrCase) (d : datetime),
     get_sort_value "created_date" (cat_of "CHECKS" (PDatetime d))
       = (t ← timestamp d; Return (KNum t)) /\
     get_sort_value "created_date" undated = Return (KStr "") /\
     get_sort_value "created_date" (<["code" := PStr "W2"]> ∅)
       = Return (KStr "") /\
     sort_categories "created_date" asc
       [cat_of "CHECKS" (PDatetime d); undated]
       = (t ← timestamp d; Raise TypeError) /\
     sort_categories "created_date" desc
       [cat_of "CHECKS" (PDatetime d); undated]
       = (t ← timestamp d; Raise TypeError) /\
     get_file_categories (Query 1 20 None None "created_date" asc)
       [cat_of "CHECKS" (PDatetime d); undated]
       = (t ← timestamp d; Raise TypeError)) /\
  get_sort_value "created_date" dated = Return k2024 /\
  sort_categories "created_date" asc [dated; undated] = Raise TypeError /\
  sort_categories "created_date" desc [dated; undated] = Raise TypeError /\
  @get_file_categories utc_seconds ascii_case
    (Query 1 20 None None "created_date" asc) [dated; undated]
    = Raise TypeError.
Proof.
  split; [|vm_compute; repeat split; reflexivity].
  intros clock case d.
  assert (Hd : get_sort_value "created_date" (cat_of "CHECKS" (PDatetime d))
               = (t ← timestamp d; Return (KNum t))) by reflexivity.
  assert (Hu : get_sort_value "created_date" undated = Return (KStr ""))
    by reflexivity.
  split; [exact Hd|]. split; [exact Hu|]. split; [reflexivity|].
  assert (Hs : forall reverse,
            list_sort (get_sort_value "created_date") reverse
              [cat_of "CHECKS" (PDatetime d); undated]
            = (t ← timestamp d; Raise TypeError)).
  { intros reverse. unfold list_sort. cbn [decorate]. rewrite Hd, Hu.
    destruct (timestamp d); [|done]. by destruct reverse. }
  split; [apply Hs|]. split; [apply Hs|].
  unfold get_file_categories, sort_categories.
  cbn [q_search q_status q_sort q_order nonempty mbind result_bind].
  rewrite Hs. by destruct (timestamp d).
Qed.

(** C6: sorting is stable in both directions. Whenever every key is
    computed and the keys are mutually comparable, sorting returns; and
    whatever it returns is a rearrangement of the input that is ordered
    as the direction asks (no later key below an earlier one for
    [asc], none above for [desc]) and in which, for every key and for
    both directions, the records with that key appear in their input
    order. Records count as having equal keys when [timestamp()]
    gives them the same number. *)
Theorem sort_categories_stable `{Clock} sort_field order cats :
  (forall keys,
     Forall2 (fun c k => get_sort_value sort_field c = Return k) cats keys ->
     comparable_keys keys = true ->
     exists sorted, sort_categories sort_field order cats = Return sorted) /\
  (forall sorted,
     sort_categories sort_field order cats = Return sorted ->
     Permutation cats sorted /\
     StronglySorted
       (in_order (get_sort_value sort_field) (is_desc order)) sorted /\
     (forall k,
        with_key (get_sort_value sort_field) k sorted =
        with_key (get_sort_value sort_field) k cats)).
Proof.
  unfold sort_categories.
  change (match order with desc => true | asc => false end)
    with (is_desc order).
  split.
  - intros keys Hk Hc. by apply (list_sort_returns _ _ _ keys).
  - intros sorted. apply list_sort_returned.
Qed.

Lemma sort_categories_stable_witness :
  exists sorted,
    sort_categories "created_date" desc tied_cats = Return sorted /\
    with_key (get_sort_value "created_date") k2024 sorted
      = [cat_of "x" t2024; cat_of "z" t2024].
Proof.
  destruct (@sort_categories_stable utc_seconds "created_date" desc tied_cats)
    as [Hret Hfacts].
  destruct (Hret [k2024; k2025; k2024])
    as [sorted Hs].
  - repeat constructor.
  - reflexivity.
  - exists sorted. split; [exact Hs|].
    destruct (Hfacts sorted Hs) as (_ & _ & Hk). rewrite Hk.
    vm_compute. reflexivity.
Defined.

End CategoriesFacts.

Module IndexesFacts.
Import Indexes Samples.

(** *** Sample definitions *)

Definition ordered_field (path order : string) : field_obj :=
  <["fieldPath" := JStr path]> (<["order" := JStr order]> ∅).

Definition array_field (path : string) : field_obj :=
  <["fieldPath" := JStr path]> (<["arrayConfig" := JStr "CONTAINS"]> ∅).

Definition users_by_email : index_def :=
  IndexDef (Some (JStr "users"))
           (Some [ordered_field "email" "ASCENDING";
                  ordered_field "created_date" "DESCENDING"])
           (Some (JStr "COLLECTION")).

Definition logs_by_tag : index_def :=
  IndexDef (Some (JStr "activity_logs"))
           (Some [array_field "tags"; ordered_field "timestamp" "DESCENDING"])
           None.

(** A field with both [order] and [arrayConfig]. *)
Definition both_field : field_obj :=
  <["arrayConfig" := JStr "CONTAINS"]> (ordered_field "tags" "ASCENDING").

Example validate_good :
  validate_indexes [users_by_email; logs_by_tag]
  = Validation true "valid" 2 [] [] 200.
Proof. vm_compute. reflexivity. Qed.

Example validate_both :
  validate_indexes [users_by_email; IndexDef (Some (JStr "c")) (Some [both_field]) None]
  = Validation true "valid" 2 []
      ["Index 1, field 0: has both 'order' and 'arrayConfig', 'arrayConfig' will be used"]
      200.
Proof. vm_compute. reflexivity. Qed.

Example validate_bad :
  validate_indexes [IndexDef None None None;
                    IndexDef (Some (JStr "c")) (Some [∅]) None]
  = Validation false "invalid" 2
      ["Index 0: missing 'collectionGroup' field";
       "Index 0: missing or empty 'fields' array";
       "Index 1, field 0: missing 'fieldPath'";
       "Index 1, field 0: must have either 'order' or 'arrayConfig'"]
      [] 400.
Proof. vm_compute. reflexivity. Qed.

(** *** The validator only ever appends *)

Definition extends (r r' : report) : Prop :=
  (exists es, validation_errors r' = validation_errors r ++ es) /\
  (exists ws, validation_warnings r' = validation_warnings r ++ ws).

Lemma extends_refl r : extends r r.
Proof. split; exists []; by rewrite app_nil_r. Qed.

Lemma extends_trans r1 r2 r3 : extends r1 r2 -> extends r2 r3 -> extends r1 r3.
Proof.
  intros [[e1 He1] [w1 Hw1]] [[e2 He2] [w2 Hw2]]. split.
  - exists (e1 ++ e2). by rewrite He2, He1, app_assoc.
  - exists (w1 ++ w2). by rewrite Hw2, Hw1, app_assoc.
Qed.

Lemma extends_add_error msg r : extends r (add_error msg r).
Proof. split; [by exists [msg] | exists []; simpl; by rewrite app_nil_r]. Qed.

Lemma extends_add_warning msg r : extends r (add_warning msg r).
Proof. split; [exists []; simpl; by rewrite app_nil_r | by exists [msg]]. Qed.

Ltac extends_chain :=
  repeat first
    [ apply extends_refl
    | eapply extends_trans; [|apply extends_add_error]
    | eapply extends_trans; [|apply extends_add_warning] ].

Lemma validate_field_extends idx field_idx f r :
  extends r (validate_field idx field_idx f r).
Proof.
  unfold validate_field.
  destruct (f !! "fieldPath"), (f !! "order") as [o|],
           (f !! "arrayConfig") as [a|]; simpl;
    repeat match goal with
           | |- context [if ?b then _ else _] => destruct b
           end; extends_chain.
Qed.

Lemma validate_fields_extends idx field_idx fs r :
  extends r (validate_fields idx field_idx fs r).
Proof.
  revert field_idx r. induction fs as [|f fs IH]; intros i r; simpl.
  - apply extends_refl.
  - eapply extends_trans; [apply validate_field_extends | apply IH].
Qed.

Lemma validate_index_extends idx d r : extends r (validate_index idx d r).
Proof.
  unfold validate_index.
  destruct (collectionGroup d), (fields d) as [[|f fs]|];
    repeat (eapply extends_trans; [|apply validate_fields_extends]);
    extends_chain.
Qed.

Lemma validate_from_extends idx ds r : extends r (validate_from idx ds r).
Proof.
  revert idx r. induction ds as [|d ds IH]; intros idx r; simpl.
  - apply extends_refl.
  - eapply extends_trans; [apply validate_index_extends | apply IH].
Qed.

Lemma extends_warning r r' w :
  extends r r' -> In w (validation_warnings r) -> In w (validation_warnings r').
Proof. intros [_ [ws ->]] Hw. apply in_or_app. by left. Qed.

Lemma extends_error r r' e :
  extends r r' -> In e (validation_errors r) -> In e (validation_errors r').
Proof. intros [[es ->] _] He. apply in_or_app. by left. Qed.

(** *** Fields that carry both [order] and [arrayConfig] *)

Definition both_warning (idx field_idx : nat) : string :=
  (at_field idx field_idx
     ++ ": has both 'order' and 'arrayConfig', 'arrayConfig' will be used")%string.

Lemma validate_field_both idx field_idx f r :
  is_Some (f !! "order") -> is_Some (f !! "arrayConfig") ->
  In (both_warning idx field_idx)
     (validation_warnings (validate_field idx field_idx f r)).
Proof.
  intros [o Ho] [a Ha]. unfold validate_field. rewrite Ho, Ha. simpl.
  set (r1 := match f !! "fieldPath" with None => _ | Some _ => r end).
  set (r2 := add_warning _ r1).
  assert (H2 : In (both_warning idx field_idx) (validation_warnings r2)).
  { unfold r2, add_warning. simpl. apply in_or_app. right. by left. }
  eapply extends_warning; [|exact H2].
  repeat match goal with
         | |- context [if ?b then _ else _] => destruct b
         end; extends_chain.
Qed.

Lemma validate_fields_both idx field_idx fs j f r :
  fs !! j = Some f ->
  is_Some (f !! "order") -> is_Some (f !! "arrayConfig") ->
  In (both_warning idx (field_idx + j))
     (validation_warnings (validate_fields idx field_idx fs r)).
Proof.
  revert field_idx j r. induction fs as [|g fs IH]; intros i j r Hj Ho Ha.
  - done.
  - destruct j as [|j]; simpl in *.
    + injection Hj as ->. rewrite Nat.add_0_r.
      eapply extends_warning; [apply validate_fields_extends|].
      by apply validate_field_both.
    + replace (i + S j)%nat with (S i + j)%nat by lia. by apply IH.
Qed.

Lemma validate_from_both idx ds k d fs j f r :
  ds !! k = Some d -> fields d = Some fs -> fs !! j = Some f ->
  is_Some (f !! "order") -> is_Some (f !! "arrayConfig") ->
  In (both_warning (idx + k) j)
     (validation_warnings (validate_from idx ds r)).
Proof.
  revert idx k r. induction ds as [|d' ds IH]; intros idx k r Hk Hfs Hj Ho Ha.
  - done.
  - destruct k as [|k]; simpl in *.
    + injection Hk as ->. rewrite Nat.add_0_r.
      eapply extends_warning; [apply validate_from_extends|].
      unfold validate_index. rewrite Hfs.
      by apply (validate_fields_both idx 0 fs j f).
    + replace (idx + S k)%nat with (S idx + k)%nat by lia. by eapply IH.
Qed.

(** *** Definitions that produce no error *)

(** A field with a path, at least one of [order] / [arrayConfig], and
    an admissible value for each of the two that is present; having
    both is allowed. *)
Definition clean_field (f : field_obj) : bool :=
  bool_decide (is_Some (f !! "fieldPath")) &&
  (bool_decide (is_Some (f !! "order")) ||
   bool_decide (is_Some (f !! "arrayConfig"))) &&
  match f !! "order" with
  | Some o => is_str o "ASCENDING" || is_str o "DESCENDING"
  | None => true
  end &&
  match f !! "arrayConfig" with
  | Some a => is_str a "CONTAINS"
  | None => true
  end.

Definition clean_def (d : index_def) : bool :=
  bool_decide (is_Some (collectionGroup d)) &&
  match fields d with
  | Some (f :: fs) => forallb clean_field (f :: fs)
  | _ => false
  end.

Lemma clean_field_no_error idx field_idx f r :
  clean_field f = true ->
  validation_errors (validate_field idx field_idx f r) = validation_errors r.
Proof.
  unfold clean_field, validate_field. intros Hc.
  destruct (f !! "fieldPath"), (f !! "order") as [o|],
           (f !! "arrayConfig") as [a|]; simpl in *; try done;
    repeat match goal with
           | H : _ && _ = true |- _ => apply andb_true_iff in H as [? ?]
           end;
    repeat match goal with
           | H : ?b = true |- context [?b] => rewrite H
           end; done.
Qed.

Lemma clean_fields_no_error idx field_idx fs r :
  forallb clean_field fs = true ->
  validation_errors (validate_fields idx field_idx fs r) = validation_errors r.
Proof.
  revert field_idx r. induction fs as [|f fs IH]; intros i r Hc; simpl in *.
  - done.
  - apply andb_true_iff in Hc as [Hf Hfs].
    rewrite IH by done. by apply clean_field_no_error.
Qed.

Lemma clean_def_no_error idx d r :
  clean_def d = true ->
  validation_errors (validate_index idx d r) = validation_errors r.
Proof.
  unfold clean_def, validate_index. intros Hc.
  destruct (collectionGroup d), (fields d) as [[|f fs]|]; try done.
  by apply (clean_fields_no_error idx 0 (f :: fs)).
Qed.

Lemma clean_defs_no_error idx ds r :
  forallb clean_def ds = true ->
  validation_errors (validate_from idx ds r) = validation_errors r.
Proof.
  revert idx r. induction ds as [|d ds IH]; intros idx r Hc; simpl in *.
  - done.
  - apply andb_true_iff in Hc as [Hd Hds].
    rewrite IH by done. by apply clean_def_no_error.
Qed.

Lemma is_valid_iff indexes :
  is_valid (validate_indexes indexes) = true <->
  errors (validate_indexes indexes) = [].
Proof.
  unfold validate_indexes. simpl.
  destruct (validation_errors _); simpl; split; done.
Qed.

(** C8: a field that carries both [order] and [arrayConfig] puts the
    warning for its position into the report, never an error of its
    own: definitions that are otherwise in order, with any number of
    such fields, give an empty error list. Validity is decided by the
    errors alone: [is_valid] holds exactly when the error list is
    empty, and the status code follows it. *)
Theorem both_order_and_array_config_warns (indexes : list index_def) :
  (forall idx index_config fs field_idx field_config,
     indexes !! idx = Some index_config ->
     fields index_config = Some fs ->
     fs !! field_idx = Some field_config ->
     is_Some (field_config !! "order") ->
     is_Some (field_config !! "arrayConfig") ->
     In (both_warning idx field_idx) (warnings (validate_indexes indexes))) /\
  (is_valid (validate_indexes indexes) = true <->
   errors (validate_indexes indexes) = []) /\
  (v_code (validate_indexes indexes) = 200 <->
   errors (validate_indexes indexes) = []) /\
  (forallb clean_def indexes = true ->
   errors (validate_indexes indexes) = [] /\
   is_valid (validate_indexes indexes) = true).
Proof.
  split; [|split; [|split]].
  - intros idx d fs j f Hd Hfs Hf Ho Ha.
    apply (validate_from_both 0 indexes idx d fs j f); done.
  - apply is_valid_iff.
  - rewrite <- is_valid_iff. unfold validate_indexes. simpl.
    destruct (length _ =? 0)%nat; split; done.
  - intros Hc.
    assert (He : errors (validate_indexes indexes) = [])
      by (by apply (clean_defs_no_error 0 indexes (Report [] []))).
    split; [done|]. by apply is_valid_iff.
Qed.

Definition tagged : index_def :=
  IndexDef (Some (JStr "documents")) (Some [both_field]) None.

Lemma both_order_and_array_config_warns_witness :
  In "Index 1, field 0: has both 'order' and 'arrayConfig', 'arrayConfig' will be used"
     (warnings (validate_indexes [users_by_email; tagged])) /\
  errors (validate_indexes [users_by_email; tagged]) = [] /\
  is_valid (validate_indexes [users_by_email; tagged]) = true.
Proof.
  destruct (both_order_and_array_config_warns [users_by_email; tagged])
    as (Hw & _ & _ & Hc).
  split.
  - apply (Hw 1%nat tagged [both_field] 0%nat both_field);
      try reflexivity; vm_compute; eauto.
  - apply Hc. vm_compute. reflexivity.
Defined.

(** *** Definitions without a collection *)

Definition missing_collection (idx : nat) : string :=
  (at_index idx ++ ": missing 'collectionGroup' field")%string.

Lemma validate_from_missing_collection idx ds k d r :
  ds !! k = Some d -> collectionGroup d = None ->
  In (missing_collection (idx + k)) (validation_errors (validate_from idx ds r)).
Proof.
  revert idx k r. induction ds as [|d' ds IH]; intros idx k r Hk Hd.
  - done.
  - destruct k as [|k]; simpl in *.
    + injection Hk as ->. rewrite Nat.add_0_r.
      eapply extends_error; [apply validate_from_extends|].
      unfold validate_index. rewrite Hd.
      set (r1 := add_error _ r).
      assert (H1 : In (missing_collection idx) (validation_errors r1)).
      { unfold r1, add_error. simpl. apply in_or_app. right. by left. }
      eapply extends_error; [|exact H1].
      destruct (fields d) as [[|f fs]|];
        repeat (eapply extends_trans; [|apply validate_fields_extends]);
        extends_chain.
    + replace (idx + S k)%nat with (S idx + k)%nat by lia. by eapply IH.
Qed.

(** A definition without the [collectionGroup] key is reported and
    makes the configuration invalid. *)
Lemma validate_missing_collection indexes idx index_config :
  indexes !! idx = Some index_config ->
  collectionGroup index_config = None ->
  In (missing_collection idx) (errors (validate_indexes indexes)) /\
  is_valid (validate_indexes indexes) = false /\
  v_code (validate_indexes indexes) = 400.
Proof.
  intros Hk Hd.
  pose proof (validate_from_missing_collection 0 indexes idx index_config
                (Report [] []) Hk Hd) as Hin.
  unfold validate_indexes. simpl in *.
  destruct (validation_errors _); [done|]. by simpl.
Qed.

(** *** The provisioning loop *)

Definition flagged (o : outcome) : bool :=
  match o_status o with
  | Skipped | Error => true
  | Initiated | Exists => false
  end.

Section LoopFacts.
Context `{PyLib} {client : Type} `{IndexApi client}.
Implicit Types (st : loop_state client) (d : index_def).

Definition conflict (e : http_error) (error_content : string) : Prop :=
  resp_status e = 409 \/
  contains "already exists" (str_lower error_content) = true.

Lemma already_exists_conflict e error_content :
  already_exists e error_content = true <-> conflict e error_content.
Proof.
  unfold already_exists, conflict.
  by rewrite orb_true_iff, Z.eqb_eq.
Qed.

Lemma prepare_skip d o : prepare d = Return (Skip o) -> o_status o = Skipped.
Proof.
  unfold prepare. intros Hp.
  destruct (collectionGroup d) as [cid|]; [|by injection Hp as <-].
  destruct (truthy cid); simpl in Hp; [|by injection Hp as <-].
  destruct (to_api_fields _) as [|f fs]; [by injection Hp as <-|].
  destruct (index_name_str _ _); simpl in Hp; discriminate.
Qed.

(** What the [try] statement does when the call raises [HttpError]. *)
Lemma submit_http_error parent cid body label st e api' :
  create_index (api st) (parent ++ "/" ++ py_str cid) body
    = (RaiseHttpError e, api') ->
  submit parent cid body label st =
    (error_content ← error_content_of e;
     if already_exists e error_content then
       Return (LoopState
                 (results st ++
                    [Outcome (JStr label) Exists
                             (JStr "Index already exists.")])
                 (has_errors st) api')
     else
       error_detail ← error_detail_of e error_content;
       Return (LoopState
                 (results st ++ [Outcome (JStr label) Error error_detail])
                 true api')).
Proof. intros Hc. unfold submit. by rewrite Hc. Qed.

(** Every pass through the loop body that returns has appended
    exactly one outcome and kept [has_errors] in step with it. *)
Lemma create_index_for_step parent d st st' :
  create_index_for parent d st = Return st' ->
  exists o,
    results st' = results st ++ [o] /\
    has_errors st' = has_errors st || flagged o.
Proof.
  unfold create_index_for. intros Hr.
  destruct (prepare d) as [[o|cid body label]|x] eqn:Hp; simpl in Hr;
    [| |discriminate].
  - injection Hr as <-. exists o. simpl. split; [done|].
    unfold flagged. rewrite (prepare_skip d o Hp). by rewrite orb_true_r.
  - unfold submit in Hr.
    destruct (create_index _ _ _) as [[op|e|msg] api'].
    + injection Hr as <-. eexists. simpl. split; [done|].
      by rewrite orb_false_r.
    + destruct (error_content_of e) as [text|x]; simpl in Hr;
        [|discriminate].
      destruct (already_exists e text).
      * injection Hr as <-. eexists. simpl. split; [done|].
        by rewrite orb_false_r.
      * destruct (error_detail_of e text) as [dt|x]; simpl in Hr;
          [|discriminate].
        injection Hr as <-. eexists. simpl. split; [done|].
        by rewrite orb_true_r.
    + injection Hr as <-. eexists. simpl. split; [done|].
      by rewrite orb_true_r.
Qed.

Lemma create_indexes_loop_spec parent ds st st' :
  create_indexes_loop parent ds st = Return st' ->
  exists outcomes,
    results st' = results st ++ outcomes /\
    length outcomes = length ds /\
    has_errors st' = has_errors st || existsb flagged outcomes.
Proof.
  revert st. induction ds as [|d ds IH]; intros st Hr; simpl in Hr.
  - injection Hr as <-. exists []. by rewrite app_nil_r, orb_false_r.
  - destruct (create_index_for parent d st) as [st1|x] eqn:H1;
      simpl in Hr; [|discriminate].
    destruct (create_index_for_step _ _ _ _ H1) as (o & Ho & Hf).
    destruct (IH _ Hr) as (os & Hos & Hlen & Hfs).
    exists (o :: os). split; [|split].
    + by rewrite Hos, Ho, <- app_assoc.
    + simpl. by rewrite Hlen.
    + rewrite Hfs, Hf. simpl. by rewrite orb_assoc.
Qed.

(** A batch that returns reports one outcome per definition. *)
Lemma create_indexes_one_outcome_each parent c ds resp c' :
  create_indexes parent c ds = Return (resp, c') ->
  length (r_results resp) = length ds /\
  r_has_errors resp = existsb flagged (r_results resp).
Proof.
  unfold create_indexes. intros Hr. destruct ds as [|d ds].
  - by injection Hr as <- <-.
  - destruct (create_indexes_loop _ _ _) as [st|x] eqn:Hl; simpl in Hr;
      [|discriminate].
    injection Hr as <- <-. simpl.
    destruct (create_indexes_loop_spec _ _ _ _ Hl) as (os & Hos & Hlen & Hf).
    simpl in *. by rewrite Hos, Hf.
Qed.

Lemma existsb_flagged os :
  existsb flagged os = true <->
  exists o, In o os /\ (o_status o = Skipped \/ o_status o = Error).
Proof.
  rewrite existsb_exists. unfold flagged.
  split; intros (o & Hin & Ho); exists o; (split; [done|]).
  - destruct (o_status o); auto; discriminate.
  - by destruct Ho as [-> | ->].
Qed.
(** Whenever the handler of [HttpError] does record an outcome, it is
    [Exists] if the response status is 409 or the lower-cased payload
    contains ['already exists'], and [Error] otherwise. *)
Lemma http_error_recorded parent d st collection_id body label e api' st' :
  prepare d = Return (Submit collection_id body label) ->
  create_index (api st) (parent ++ "/" ++ py_str collection_id) body
    = (RaiseHttpError e, api') ->
  create_index_for parent d st = Return st' ->
  exists error_content o,
    utf8_decode (content e) = Some error_content /\
    results st' = results st ++ [o] /\
    o_index o = JStr label /\
    (o_status o = Exists <-> conflict e error_content) /\
    (o_status o = Error <-> ~ conflict e error_content).
Proof.
  intros Hp Hc. unfold create_index_for. rewrite Hp. simpl.
  rewrite (submit_http_error _ _ _ _ _ _ _ Hc). unfold error_content_of.
  destruct (utf8_decode (content e)) as [text|]; simpl; [|discriminate].
  pose proof (already_exists_conflict e text) as Hiff.
  destruct (already_exists e text).
  - assert (Hyes : conflict e text) by (by apply Hiff).
    intros [= <-]. exists text. eexists. simpl. repeat split; done.
  - assert (Hno : ~ conflict e text)
      by (intros Hcf; apply Hiff in Hcf; discriminate).
    destruct (error_detail_of e text) as [dt|x]; simpl; [|discriminate].
    intros [= <-]. exists text. eexists. simpl. repeat split; done.
Qed.

(** The flag reported for a batch that returns is true exactly when
    some outcome is [Skipped] or [Error]; it selects the 207 status
    code. *)
Lemma batch_flag_iff_flagged_outcome parent firestore_admin ds resp c' :
  create_indexes parent firestore_admin ds = Return (resp, c') ->
  (r_has_errors resp = true <->
   exists o, In o (r_results resp) /\
             (o_status o = Skipped \/ o_status o = Error)) /\
  (r_code resp = 207 <-> r_has_errors resp = true).
Proof.
  intros Hr.
  destruct (create_indexes_one_outcome_each _ _ _ _ _ Hr) as [_ Hf].
  split.
  - rewrite Hf. apply existsb_flagged.
  - unfold create_indexes in Hr. destruct ds as [|d ds].
    + injection Hr as <- <-. simpl. split; discriminate.
    + destruct (create_indexes_loop _ _ _) as [st|x]; simpl in Hr;
        [|discriminate].
      injection Hr as <- <-. simpl.
      destruct (has_errors st); split; done.
Qed.
End LoopFacts.

(** *** A scripted service and a minimal runtime *)

(** A client that answers the successive calls with a list of
    prepared responses. *)
Definition scripted : IndexApi (list api_response) :=
  {| create_index st _ _ :=
       match st with
       | r :: rest => (r, rest)
       | [] => (RaiseException "connection closed", [])
       end |}.

Definition quote : string := String (ascii_of_nat 34) EmptyString.

(** The payload [{"error": "unavailable"}], whose [error] member is a
    string rather than an object. *)
Definition flat_error_payload : string :=
  ("{" ++ quote ++ "error" ++ quote ++ ": "
       ++ quote ++ "unavailable" ++ quote ++ "}")%string.

(** The byte 0xFF, which no UTF-8 text contains. *)
Definition byte_ff : string := String (ascii_of_nat 255) EmptyString.

(** A runtime with the case mappings of ASCII text; it decodes every
    payload without the byte 0xFF and parses only
    [flat_error_payload]. *)
Definition plain_runtime : PyLib :=
  {| lib_case := ascii_case;
     container_repr := fun _ => "[...]";
     utf8_decode := fun s => if contains byte_ff s then None else Some s;
     json_loads := fun s =>
       if String.eqb s flat_error_payload
       then Some (JObj {[ "error" := JStr "unavailable" ]})
       else None;
     json_dumps := fun _ => "null" |}.

Definition parent_path : string :=
  "projects/demo/databases/(default)/collectionGroups".

Definition started (name : string) : api_response :=
  Operation {[ "name" := JStr name ]}.

Definition conflict_409 : http_error :=
  HttpError 409 "Conflict" "<HttpError 409 Conflict>".

Definition duplicate_400 : http_error :=
  HttpError 400 "Index Already Exists" "<HttpError 400>".

Definition internal_500 : http_error :=
  HttpError 500 "backend error" "<HttpError 500>".

Definition run := @create_indexes plain_runtime (list api_response) scripted.

Example batch_with_existing_index :
  run parent_path [started "op/1"; RaiseHttpError conflict_409; started "op/3"]
      [users_by_email; logs_by_tag; users_by_email]
  = Return
      (Response "Completed"
         [Outcome (JStr "users (email ASCENDING, created_date DESCENDING)")
                  Initiated (JStr "Operation: op/1");
          Outcome (JStr "activity_logs (tags ARRAY_CONTAINS, timestamp DESCENDING)")
                  Exists (JStr "Index already exists.");
          Outcome (JStr "users (email ASCENDING, created_date DESCENDING)")
                  Initiated (JStr "Operation: op/3")]
         false 200,
       []).
Proof. vm_compute. reflexivity. Qed.

Example batch_with_server_error :
  run parent_path [started "op/1"; RaiseHttpError internal_500; started "op/3"]
      [users_by_email; logs_by_tag; users_by_email]
  = Return
      (Response "Completed with Errors/Skips"
         [Outcome (JStr "users (email ASCENDING, created_date DESCENDING)")
                  Initiated (JStr "Operation: op/1");
          Outcome (JStr "activity_logs (tags ARRAY_CONTAINS, timestamp DESCENDING)")
                  Error (JStr "<HttpError 500>");
          Outcome (JStr "users (email ASCENDING, created_date DESCENDING)")
                  Initiated (JStr "Operation: op/3")]
         true 207,
       []).
Proof. vm_compute. reflexivity. Qed.

Example batch_with_message_match :
  exists resp,
    run parent_path [RaiseHttpError duplicate_400] [logs_by_tag]
      = Return (resp, []) /\
    map o_status (r_results resp) = [Exists] /\ r_has_errors resp = false.
Proof. eexists. vm_compute. repeat split; reflexivity. Qed.

Definition one_call (e : http_error) : loop_state (list api_response) :=
  LoopState [] false [RaiseHttpError e].

(** *** Errors of the service that the handler does not survive *)

(** A conflict whose payload is not UTF-8 text, and an outage reported
    with the payload [flat_error_payload]. *)
Definition garbled_409 : http_error :=
  HttpError 409 byte_ff "<HttpError 409>".

Definition unavailable_503 : http_error :=
  HttpError 503 flat_error_payload "<HttpError 503>".

(** C3: the handler of [HttpError] does raise. The payload is decoded
    before the status is looked at, so a 409 whose payload is not UTF-8
    raises [UnicodeDecodeError] and is not recorded as [Exists]; and
    the extraction of the detail catches [JSONDecodeError], [KeyError]
    and [TypeError] but not the [AttributeError] of [.get] on a value
    that is no dictionary, so a 503 with the payload
    [{"error": "unavailable"}] is not recorded as [Error]. What is
    raised inside the handler is not caught by the handler for
    [Exception] beside it: it ends the batch, with nothing reported
    for the definition submitted before and the one after it never
    processed. The same two errors alone, as the only call, raise
    alike. *)
Theorem http_error_handler_raises :
  run parent_path
      [started "op/1"; RaiseHttpError garbled_409; started "op/3"]
      [users_by_email; logs_by_tag; users_by_email]
    = Raise UnicodeDecodeError /\
  run parent_path
      [started "op/1"; RaiseHttpError unavailable_503; started "op/3"]
      [users_by_email; logs_by_tag; users_by_email]
    = Raise AttributeError /\
  run parent_path [RaiseHttpError garbled_409] [logs_by_tag]
    = Raise UnicodeDecodeError /\
  run parent_path [RaiseHttpError unavailable_503] [logs_by_tag]
    = Raise AttributeError.
Proof. vm_compute. repeat split; reflexivity. Qed.

(** *** Definitions whose label cannot be built *)

(** A field with an [order] and no [fieldPath]. *)
Definition pathless_field : field_obj := {[ "order" := JStr "ASCENDING" ]}.

Definition pathless : index_def :=
  IndexDef (Some (JStr "users")) (Some [pathless_field]) None.

(** C1: the batch does raise. The label [index_name_str] is built
    before the [try] statement; for a field that has an [order] and no
    [fieldPath] (which the validator reports, so the provisioner can
    meet it when run without validation) the lookup
    [f['fieldPath']] raises [KeyError] there. The exception leaves the
    loop: whatever the client and whatever follows in the batch, no
    outcome list is returned, also when earlier definitions had
    already been submitted. *)
Theorem label_key_error_aborts_batch :
  (forall (lib : PyLib) (client : Type) (remote : IndexApi client)
          (parent : string) (firestore_admin : client)
          (rest : list index_def),
     create_indexes parent firestore_admin (pathless :: rest)
       = Raise (KeyError "fieldPath")) /\
  run parent_path [started "op/1"; started "op/2"; started "op/3"]
      [users_by_email; pathless; logs_by_tag]
    = Raise (KeyError "fieldPath") /\
  errors (validate_indexes [users_by_email; pathless; logs_by_tag])
    = ["Index 1, field 0: missing 'fieldPath'"].
Proof.
  split; [|split].
  - intros. reflexivity.
  - vm_compute. reflexivity.
  - vm_compute. reflexivity.
Qed.

(** *** Definitions with an empty collection *)

Definition blank_collection : index_def :=
  IndexDef (Some (JStr "")) (Some [ordered_field "email" "ASCENDING"]) None.

(** C9: an empty [collectionGroup] is not reported. The validator
    tests only that the key is present, so the definition passes as
    valid, whereas [create_indexes] treats the same definition as
    having no collection and skips it with an error flag. *)
Theorem empty_collection_passes_validation :
  validate_indexes [blank_collection] = Validation true "valid" 1 [] [] 200 /\
  (forall (lib : PyLib) (client : Type) (remote : IndexApi client)
          (parent : string) (firestore_admin : client),
     create_indexes parent firestore_admin [blank_collection]
       = Return
           (Response "Completed with Errors/Skips"
              [Outcome (JStr "Unknown") Skipped
                       (JStr "Missing 'collectionGroup' in definition.")]
              true 207,
            firestore_admin)).
Proof.
  split.
  - vm_compute. reflexivity.
  - intros. reflexivity.
Qed.

End IndexesFacts.

(* ================================================================== *)
(** * Part III: further properties of the modelled code *)
(* ================================================================== *)

Module PaginateMore.
Import Paginate PaginateFacts.

(** The items of one page, as a plain list. *)
Definition page_items {A} (l : list A) (per_page : Z) (page : nat) : list A :=
  match _paginate_firestore l (Z.of_nat page) per_page with
  | Return pg => items pg
  | Raise _ => []
  end.

(** X1: for a positive page size, [has_next] says exactly that the
    requested page number is below [pages], and [has_prev] that it is
    above 1; so the last page, and every page after it, has no next. *)
Theorem has_next_iff_below_pages {A} (l : list A) (page per_page : Z) :
  1 <= per_page ->
  exists pg,
    _paginate_firestore l page per_page = Return pg /\
    (has_next pg = true <-> page < pages pg) /\
    (has_prev pg = true <-> 1 < page) /\
    (pages pg <= page -> has_next pg = false).
Proof.
  intros Hpp. eexists. split; [apply paginate_returns; lia|]. simpl.
  set (t := Z.of_nat (length l)).
  assert (Ht : 0 <= t) by (unfold t; lia).
  set (q := (t + per_page - 1) / per_page).
  assert (Hq : (q - 1) * per_page < t <= q * per_page).
  { unfold q.
    pose proof (Z.mul_div_le (t + per_page - 1) per_page ltac:(lia)).
    pose proof (Z.mul_succ_div_gt (t + per_page - 1) per_page ltac:(lia)).
    nia. }
  clearbody q t.
  rewrite Z.ltb_lt. split; [|split].
  - split; intros H; nia.
  - apply Z.ltb_lt.
  - intros H. apply Z.ltb_ge. nia.
Qed.

Lemma has_next_iff_below_pages_witness :
  1 <= 2 /\
  exists pg,
    _paginate_firestore ["a"; "b"; "c"; "d"; "e"] 2 2 = Return pg /\
    has_next pg = true /\ pages pg = 3.
Proof.
  split; [lia|].
  destruct (has_next_iff_below_pages ["a"; "b"; "c"; "d"; "e"] 2 2)
    as (pg & Hr & Hn & _); [lia|].
  exists pg. split; [exact Hr|].
  assert (Hp : pages pg = 3).
  { vm_compute in Hr. injection Hr as <-. reflexivity. }
  split; [|exact Hp]. apply Hn. rewrite Hp. lia.
Defined.

Lemma windows_concat {A} (l : list A) (k n : nat) :
  concat (map (fun i => take k (drop ((i - 1) * k) l)) (seq 1 n))
  = take (n * k) l.
Proof.
  induction n as [|n IH]; [by rewrite take_0|].
  rewrite seq_S, map_app, concat_app, IH. simpl.
  rewrite app_nil_r. replace (n - 0)%nat with n by lia.
  rewrite take_take_drop. f_equal. lia.
Qed.

Lemma page_items_window {A} (l : list A) (per_page : Z) (i : nat) :
  1 <= per_page -> (1 <= i)%nat ->
  page_items l per_page i
  = take (Z.to_nat per_page) (drop ((i - 1) * Z.to_nat per_page) l).
Proof.
  intros Hpp Hi. unfold page_items.
  rewrite paginate_returns by lia. simpl.
  rewrite slice_nonneg by nia. f_equal; [f_equal; lia|f_equal; nia].
Qed.

(** X2: the pages tile the result set. For a positive page size, the
    items of pages [1 .. pages], one after the other, are the whole
    list: no record is lost, repeated or moved. *)
Theorem pages_tile_the_results {A} (l : list A) (per_page : Z) :
  1 <= per_page ->
  exists pg,
    _paginate_firestore l 1 per_page = Return pg /\
    concat (map (page_items l per_page) (seq 1 (Z.to_nat (pages pg)))) = l.
Proof.
  intros Hpp. eexists. split; [apply paginate_returns; lia|]. simpl.
  set (t := Z.of_nat (length l)).
  set (q := (t + per_page - 1) / per_page).
  assert (Hq : t <= q * per_page).
  { unfold q.
    pose proof (Z.mul_succ_div_gt (t + per_page - 1) per_page ltac:(lia)).
    nia. }
  rewrite (map_ext_in _
             (fun i => take (Z.to_nat per_page)
                         (drop ((i - 1) * Z.to_nat per_page) l))).
  - rewrite windows_concat. apply take_ge. unfold t in Hq. nia.
  - intros i Hi. apply in_seq in Hi. apply page_items_window; lia.
Qed.

Lemma pages_tile_the_results_witness :
  1 <= 2 /\
  concat (map (page_items ["a"; "b"; "c"; "d"; "e"] 2) (seq 1 3))
  = ["a"; "b"; "c"; "d"; "e"].
Proof.
  split; [lia|].
  destruct (pages_tile_the_results ["a"; "b"; "c"; "d"; "e"] 2)
    as (pg & Hr & Hc); [lia|].
  vm_compute in Hr. injection Hr as <-. exact Hc.
Defined.

End PaginateMore.

Module CategoriesMore.
Import Paginate PaginateFacts Categories Samples CategoriesFacts.

(** *** Sorted and stable determines the result *)

Section StableSortUnique.
Context `{Clock} {A : Type} (key : A -> sort_key).
Implicit Types (l : list A).

Lemma with_key_cons k x l :
  with_key_of key k (x :: l) =
    if bool_decide (key x = k) then x :: with_key_of key k l
    else with_key_of key k l.
Proof. reflexivity. Qed.

Lemma with_key_own x l :
  with_key_of key (key x) (x :: l) = x :: with_key_of key (key x) l.
Proof. rewrite with_key_cons. by rewrite bool_decide_eq_true_2. Qed.

Lemma with_key_in k x l : In x (with_key_of key k l) -> In x l /\ key x = k.
Proof.
  unfold with_key_of. rewrite filter_In.
  intros [Hin Hk]. by apply bool_decide_eq_true in Hk.
Qed.

(** The first element of a sorted list has the same key as the first
    element of any other sorted list with the same equal-key runs. *)
Lemma head_key_le reverse a l b m :
  StronglySorted (in_order_of key reverse) (a :: l) ->
  with_key_of key (key b) (a :: l) = with_key_of key (key b) (b :: m) ->
  key a = key b \/ in_order_of key reverse a b.
Proof.
  intros Hs Hk. rewrite (with_key_own b m) in Hk.
  assert (Hin : In b (with_key_of key (key b) (a :: l)))
    by (rewrite Hk; by left).
  apply with_key_in in Hin as [[<-|Hin] _]; [by left|].
  right. apply StronglySorted_inv in Hs as [_ Ha].
  rewrite List.Forall_forall in Ha.
  pose proof (Ha b Hin) as Hab. exact Hab.
Qed.

Lemma stable_sorted_unique reverse l m :
  StronglySorted (in_order_of key reverse) l ->
  StronglySorted (in_order_of key reverse) m ->
  (forall k, with_key_of key k l = with_key_of key k m) ->
  l = m.
Proof.
  revert m. induction l as [|a l IH]; intros m Hl Hm Hk.
  - destruct m as [|b m]; [done|].
    specialize (Hk (key b)). rewrite with_key_own in Hk. discriminate.
  - destruct m as [|b m].
    { specialize (Hk (key a)). rewrite with_key_own in Hk. discriminate. }
    assert (Hkey : key a = key b).
    { destruct (head_key_le reverse a l b m Hl (Hk (key b))) as [E|Hab];
        [done|].
      destruct (head_key_le reverse b m a l Hm (eq_sym (Hk (key a))))
        as [E|Hba]; [done|].
      unfold in_order_of in *. destruct reverse; by apply key_le_antisym. }
    pose proof (Hk (key a)) as Ha.
    rewrite with_key_own, Hkey, with_key_own in Ha.
    injection Ha as <- Ha. f_equal.
    apply IH.
    + by apply StronglySorted_inv in Hl as [? _].
    + by apply StronglySorted_inv in Hm as [? _].
    + intros k. specialize (Hk k). rewrite !with_key_cons in Hk.
      destruct (bool_decide (key a = k)); [by injection Hk|done].
Qed.

(** Sorting a list that is already in order returns it. *)
Lemma sort_keyed_sorted_id reverse l :
  comparable_keys (map key l) = true ->
  StronglySorted (in_order_of key reverse) l ->
  sort_keyed reverse (map (dec key) l) = Return l.
Proof.
  intros Hc Hs.
  destruct (sort_keyed_spec key reverse l Hc) as (r & Hr & _ & Hsr & Hk).
  rewrite Hr. f_equal. by apply (stable_sorted_unique reverse).
Qed.

Lemma sorted_equal_keys reverse k l :
  (forall x, In x l -> key x = k) ->
  StronglySorted (in_order_of key reverse) l.
Proof.
  induction l as [|a l IH]; intros Hall; [constructor|].
  constructor.
  - apply IH. intros x Hx. apply Hall. by right.
  - apply List.Forall_forall. intros b Hb.
    unfold in_order_of. rewrite (Hall a), (Hall b) by (simpl; auto).
    destruct reverse; apply key_ltb_irrefl.
Qed.

Lemma comparable_equal_keys k l :
  k <> KObj -> (forall x, In x l -> key x = k) ->
  comparable_keys (map key l) = true.
Proof.
  intros Hk Hall. apply comparable_cases. left.
  exists (is_str k). apply List.Forall_forall. intros [k' x] Hin.
  apply in_map_iff in Hin as (y & [= <- <-] & Hy).
  unfold same_kind. simpl. rewrite (Hall y Hy). by destruct k.
Qed.

Lemma unordered_keys_incomparable l :
  (forall x, In x l -> key x = KObj) -> (2 <= length l)%nat ->
  comparable_keys (map key l) = false.
Proof.
  intros Hall Hlen. apply not_true_iff_false. intros Hc.
  apply comparable_cases in Hc as [[s Hs]|Hl]; [|lia].
  destruct l as [|x l]; [simpl in Hlen; lia|].
  apply Forall_inv in Hs. unfold same_kind in Hs. simpl in Hs.
  rewrite (Hall x) in Hs by (by left). by destruct s.
Qed.
End StableSortUnique.

Section ListSortMore.
Context `{Clock} {A : Type} (key : A -> result sort_key).
Implicit Types (l r : list A).

Lemma list_sort_idempotent reverse l r :
  list_sort key reverse l = Return r ->
  list_sort key reverse r = Return r.
Proof.
  intros Hr.
  destruct (list_sort_returned_pure key reverse l r Hr)
    as (Hl & Hc & Hp & Hs & _).
  rewrite (list_sort_pure key reverse r) by (by apply (keys_return_perm key l r)).
  apply sort_keyed_sorted_id; [|done].
  by rewrite <- (comparable_perm (key_of key) l r Hp).
Qed.

Lemma keys_return_all l :
  (forall x, In x l -> exists k, key x = Return k) -> keys_return key l.
Proof.
  intros Hall. apply List.Forall_forall. intros x Hx.
  destruct (Hall x Hx) as [k Hk]. rewrite Hk. f_equal.
  symmetry. by apply key_of_returned.
Qed.

(** A list whose records all have the key [k]. *)
Lemma list_sort_constant k l :
  (forall x, In x l -> key x = Return k) ->
  keys_return key l /\ (forall x, In x l -> key_of key x = k).
Proof.
  intros Hall. split.
  - apply keys_return_all. intros x Hx. exists k. by apply Hall.
  - intros x Hx. apply key_of_returned. by apply Hall.
Qed.
End ListSortMore.

(** *** When the sort raises, in terms of the records *)

Section SortOutcome.
Context `{Clock}.
Implicit Types (cats : list category).

(** The kind of key that a record gets: a number for a [datetime]
    and for a number other than 0, an object without ordering for a
    true object of another type, and a string in every other case. *)
Definition number_key (sort_field : string) (cat : category) : bool :=
  match cat !! sort_field with
  | Some (PDatetime _) => true
  | Some (PNum x) => negb (bool_decide (x = zero))
  | _ => false
  end.

Definition object_key (sort_field : string) (cat : category) : bool :=
  match cat !! sort_field with
  | Some (PObj truth) => truth
  | _ => false
  end.

Definition text_key (sort_field : string) (cat : category) : bool :=
  negb (number_key sort_field cat) && negb (object_key sort_field cat).

(** The records can be sorted on the field: it gives all of them a
    string key, or all of them a number key, or there is at most one
    record. *)
Definition sortable (sort_field : string) cats : bool :=
  forallb (text_key sort_field) cats
  || forallb (number_key sort_field) cats
  || (length cats <=? 1)%nat.

Lemma key_kinds sort_field c k :
  get_sort_value sort_field c = Return k ->
  is_str k = text_key sort_field c /\ is_num k = number_key sort_field c.
Proof.
  unfold get_sort_value, text_key, number_key, object_key.
  destruct (c !! sort_field) as [[|s|x|d|b]|]; simpl.
  - by intros [= <-].
  - intros [= <-]. by destruct (negb _).
  - intros [= <-]. by destruct (negb _).
  - destruct (timestamp d); simpl; [|discriminate]. by intros [= <-].
  - intros [= <-]. by destruct b.
  - by intros [= <-].
Qed.

Lemma forallb_map_in {A B} (f : B -> bool) (g : A -> B) (h : A -> bool) l :
  (forall x, In x l -> f (g x) = h x) -> forallb f (map g l) = forallb h l.
Proof.
  induction l as [|x l IH]; simpl; intros Hfg; [done|].
  rewrite Hfg by auto. f_equal. apply IH. auto.
Qed.

Lemma comparable_sortable sort_field cats :
  keys_return (get_sort_value sort_field) cats ->
  comparable_keys (map (key_of (get_sort_value sort_field)) cats)
  = sortable sort_field cats.
Proof.
  intros Hl. unfold comparable_keys, sortable. rewrite length_map.
  unfold keys_return in Hl. rewrite List.Forall_forall in Hl.
  f_equal. f_equal; apply forallb_map_in; intros c Hc;
    by destruct (key_kinds sort_field c _ (Hl c Hc)).
Qed.

Lemma timestamps_return sort_field cats :
  (forall c d, In c cats -> c !! sort_field = Some (PDatetime d) ->
               exists t, timestamp d = Return t) ->
  keys_return (get_sort_value sort_field) cats.
Proof.
  intros Hall. apply keys_return_all. intros c Hc.
  destruct (get_sort_value sort_field c) as [k|e] eqn:Hk; [by eauto|].
  apply get_sort_value_raised in Hk as (d & Hd & Hr).
  destruct (Hall c d Hc Hd) as [t Ht]. congruence.
Qed.

(** X3: when the sort raises, and what. An exception other than
    [TypeError] is one that [timestamp()] has raised on a record of
    the list. When every call of [timestamp()] returns, the sorting
    stage raises [TypeError] exactly when the records cannot be sorted
    on the field: there are two or more of them and the field gives
    some record a key without ordering, or one record a number and
    another a string; in every other case it returns. *)
Theorem sort_raises_iff_mixed sort_field order cats :
  (forall e,
     sort_categories sort_field order cats = Raise e ->
     e = TypeError \/
     exists c d, In c cats /\ c !! sort_field = Some (PDatetime d) /\
                 timestamp d = Raise e) /\
  ((forall c d, In c cats -> c !! sort_field = Some (PDatetime d) ->
                exists t, timestamp d = Return t) ->
   (sort_categories sort_field order cats = Raise TypeError <->
    sortable sort_field cats = false) /\
   ((exists sorted, sort_categories sort_field order cats = Return sorted) <->
    sortable sort_field cats = true)).
Proof.
  unfold sort_categories. split.
  - intros e Hr. unfold list_sort in Hr.
    destruct (decorate (get_sort_value sort_field) cats) as [keyed|e'] eqn:Hk;
      simpl in Hr.
    + left. destruct (decorate_returned _ _ _ Hk) as [Hl ->].
      destruct (comparable_keys
                  (map (key_of (get_sort_value sort_field)) cats)) eqn:Hc.
      * destruct (sort_keyed_spec _ (is_desc order) cats Hc) as (r & Hs & _).
        destruct order; simpl in Hs; congruence.
      * pose proof (sort_keyed_raises _ (is_desc order) cats Hc) as Hs.
        destruct order; simpl in Hs; congruence.
    + injection Hr as <-. right.
      destruct (decorate_raised _ _ _ Hk) as (c & Hc & Hraise).
      apply get_sort_value_raised in Hraise as (d & Hd & Ht).
      by exists c, d.
  - intros Hall. pose proof (timestamps_return sort_field cats Hall) as Hl.
    rewrite (list_sort_pure _ _ cats Hl).
    rewrite <- (comparable_sortable sort_field cats Hl).
    destruct (comparable_keys
                (map (key_of (get_sort_value sort_field)) cats)) eqn:Hc.
    + destruct (sort_keyed_spec _ (is_desc order) cats Hc) as (r & Hs & _).
      assert (Hs' : sort_keyed
                (match order with desc => true | asc => false end)
                (map (dec (key_of (get_sort_value sort_field))) cats)
              = Return r) by (by destruct order).
      rewrite Hs'. split; split; try done. intros _. by exists r.
    + pose proof (sort_keyed_raises _ (is_desc order) cats Hc) as Hs.
      assert (Hs' : sort_keyed
                (match order with desc => true | asc => false end)
                (map (dec (key_of (get_sort_value sort_field))) cats)
              = Raise TypeError) by (by destruct order).
      rewrite Hs'. split; split; try done. by intros [r Hr].
Qed.

(** X4: sorting on a field that gives every record the same string
    or the same number as key returns the list as it is, in both
    directions; in particular a sort field that no record has (every
    key is ['']) never reorders anything. When the one key is an
    object without ordering, as for a method or the class of the
    records, sorting two or more records raises [TypeError]. *)
Theorem sort_on_constant_key_is_identity sort_field order cats :
  (forall k,
     k <> KObj ->
     (forall c, In c cats -> get_sort_value sort_field c = Return k) ->
     sort_categories sort_field order cats = Return cats) /\
  ((forall c, In c cats -> c !! sort_field = None) ->
   sort_categories sort_field order cats = Return cats) /\
  ((forall c, In c cats -> get_sort_value sort_field c = Return KObj) ->
   (2 <= length cats)%nat ->
   sort_categories sort_field order cats = Raise TypeError).
Proof.
  assert (Hconst : forall k,
     k <> KObj ->
     (forall c, In c cats -> get_sort_value sort_field c = Return k) ->
     sort_categories sort_field order cats = Return cats).
  { intros k Hk Hall. unfold sort_categories.
    destruct (list_sort_constant _ k cats Hall) as [Hl Hkeys].
    rewrite (list_sort_pure _ _ cats Hl).
    apply sort_keyed_sorted_id.
    - by apply (comparable_equal_keys _ k).
    - by apply (sorted_equal_keys _ _ k). }
  split; [exact Hconst|]. split.
  - intros Hnone. apply (Hconst (KStr "")); [done|].
    intros c Hc. unfold get_sort_value. by rewrite (Hnone c Hc).
  - intros Hall Hlen. unfold sort_categories.
    destruct (list_sort_constant _ KObj cats Hall) as [Hl Hkeys].
    rewrite (list_sort_pure _ _ cats Hl).
    apply sort_keyed_raises. by apply unordered_keys_incomparable.
Qed.

(** X5: sorting is idempotent. Whenever the sorting stage returns,
    sorting its result again on the same field and direction returns
    that result unchanged. *)
Theorem sort_categories_idempotent sort_field order cats sorted :
  sort_categories sort_field order cats = Return sorted ->
  sort_categories sort_field order sorted = Return sorted.
Proof. unfold sort_categories. apply list_sort_idempotent. Qed.
End SortOutcome.

(** Records that carry their class and a method, as every object
    does. *)
Definition plain_object (code : string) : gmap string (@pyval utc_seconds) :=
  <["__class__" := PObj true]>
    (<["to_dict" := PObj true]> (<["code" := PStr code]> ∅)).

Lemma sort_raises_iff_mixed_witness :
  sort_categories "created_date" asc [dated; undated] = Raise TypeError /\
  sort_categories "__class__" asc [plain_object "A"; plain_object "B"]
    = Raise TypeError /\
  exists sorted, sort_categories "created_date" desc tied_cats = Return sorted.
Proof.
  split; [|split].
  - apply (proj2 (sort_raises_iff_mixed "created_date" asc [dated; undated])).
    + intros c d _ _. by exists d.
    + reflexivity.
  - apply (proj2 (sort_raises_iff_mixed "__class__" asc
                    [plain_object "A"; plain_object "B"])).
    + intros c d _ _. by exists d.
    + reflexivity.
  - apply (proj2 (sort_raises_iff_mixed "created_date" desc tied_cats)).
    + intros c d _ _. by exists d.
    + reflexivity.
Defined.

Definition three_cats : list (gmap string (@pyval utc_seconds)) :=
  [cat_of "x" t2024; cat_of "y" t2025; cat_of "z" t2024].

Lemma sort_on_constant_key_is_identity_witness :
  sort_categories "owner" desc three_cats = Return three_cats /\
  sort_categories "to_dict" desc [plain_object "A"; plain_object "B"]
    = Raise TypeError.
Proof.
  destruct (sort_on_constant_key_is_identity "owner" desc three_cats)
    as (_ & Habsent & _).
  destruct (sort_on_constant_key_is_identity "to_dict" desc
              [plain_object "A"; plain_object "B"]) as (_ & _ & Hobj).
  split.
  - apply Habsent. intros c Hc. simpl in Hc.
    destruct Hc as [<-|[<-|[<-|[]]]]; reflexivity.
  - apply Hobj; [|simpl; lia]. intros c Hc. simpl in Hc.
    destruct Hc as [<-|[<-|[]]]; reflexivity.
Defined.

Lemma sort_categories_idempotent_witness :
  sort_categories "created_date" desc
    [cat_of "y" t2025; cat_of "x" t2024; cat_of "z" t2024]
  = Return [cat_of "y" t2025; cat_of "x" t2024; cat_of "z" t2024].
Proof.
  apply (sort_categories_idempotent "created_date" desc three_cats).
  vm_compute. reflexivity.
Defined.

(** *** The search stage *)


Definition without_search (q : query) : query :=
  Query (q_page q) (q_per_page q) None (q_status q) (q_sort q) (q_order q).

Section SearchFacts.
Context `{Clock} `{StrCase}.
Implicit Types (c : category) (cats : list category).




(** A record that the search can inspect without an exception: its
    [code] is a string when present, and [name] and [description],
    when present and true, are strings. *)
Definition quiet (v : option pyval) : bool :=
  match v with
  | Some (PStr _) | None => true
  | Some v' => negb (truthy v')
  end.

Definition search_safe c : bool :=
  match c !! "code" with Some (PStr _) | None => true | Some _ => false end
  && quiet (c !! "name") && quiet (c !! "description").

(** Some searchable field is a string that contains [term], letter
    case apart; an empty name or description does not count. *)
Definition holds (term : string) (checked : bool) (v : option pyval) : bool :=
  match v with
  | Some (PStr s) =>
      (negb checked || negb (String.eqb s "")) && contains term (str_lower s)
  | _ => false
  end.

Definition any_field_contains (term : string) c : bool :=
  holds term false (c !! "code")
  || holds term true (c !! "name")
  || holds term true (c !! "description").

Lemma matches_search_safe term c :
  search_safe c = true ->
  matches_search term c = Return (any_field_contains term c).
Proof.
  unfold search_safe, matches_search, any_field_contains, holds, quiet.
  destruct (c !! "code") as [[|x|n|t|b]|]; simpl; try done;
    destruct (c !! "name") as [[|y|m|u|b1]|]; simpl; try done;
    destruct (c !! "description") as [[|z|k|w|b2]|]; simpl; try done;
    repeat match goal with
           | |- context [negb (bool_decide ?P)] =>
               destruct (bool_decide P); simpl
           | |- context [String.eqb ?s ""] =>
               destruct (String.eqb s ""); simpl
           | |- context [contains term ?s] =>
               destruct (contains term s); simpl
           | b : bool |- _ => destruct b; simpl
           end; try done.
Qed.

Lemma filter_search_safe term cats :
  forallb search_safe cats = true ->
  filter_search term cats = Return (List.filter (any_field_contains term) cats).
Proof.
  induction cats as [|c cats IH]; simpl; intros Hs; [done|].
  apply andb_true_iff in Hs as [Hc Hs].
  rewrite (matches_search_safe term c Hc). simpl.
  rewrite (IH Hs). simpl. by destruct (any_field_contains term c).
Qed.

(** X7: searching is listing the matching records. On records that
    it can inspect, the endpoint answers a request with a search term
    as it answers the same request without one on exactly the records
    of which some searchable field ([code], [name], [description]) is
    a string containing the lower-cased term, letter case apart, in
    their stored order; a [None] or empty name or description is passed
    over. *)
Theorem search_keeps_matching_records q search cats :
  q_search q = Some search -> search <> "" ->
  forallb search_safe cats = true ->
  get_file_categories q cats =
  get_file_categories (without_search q)
    (List.filter (any_field_contains (str_lower search)) cats).
Proof.
  intros Hq Hs Hsafe. unfold get_file_categories, without_search, nonempty.
  cbn [q_search q_status q_sort q_order q_page q_per_page].
  rewrite Hq. destruct (String.eqb_spec search ""); [done|].
  by rewrite (filter_search_safe _ cats Hsafe).
Qed.

(** The search raises nothing but [AttributeError]. *)
Lemma matches_search_exn term c e :
  matches_search term c = Raise e -> e = AttributeError.
Proof.
  unfold matches_search.
  destruct (c !! "code") as [[|x|n|t|b]|], (c !! "name") as [[|y|m|u|b1]|],
           (c !! "description") as [[|z|k|w|b2]|]; simpl;
    repeat match goal with
           | |- context [if ?b then _ else _] => destruct b; simpl
           end; congruence.
Qed.

Lemma filter_search_exn term cats e :
  filter_search term cats = Raise e -> e = AttributeError.
Proof.
  induction cats as [|c cats IH]; simpl; [discriminate|].
  destruct (matches_search term c) as [b|e'] eqn:Hm; simpl.
  - destruct (filter_search term cats) as [r|e'']; simpl; [discriminate|].
    intros [= <-]. by apply IH.
  - intros [= <-]. by eapply matches_search_exn.
Qed.

Lemma matches_search_bad_code term c v :
  c !! "code" = Some v -> (forall s, v <> PStr s) ->
  matches_search term c = Raise AttributeError.
Proof.
  intros Hc Hv. unfold matches_search. rewrite Hc.
  destruct v as [|s|n|t|b]; try done. by destruct (Hv s).
Qed.

Lemma filter_search_bad_code term cats c v :
  In c cats -> c !! "code" = Some v -> (forall s, v <> PStr s) ->
  filter_search term cats = Raise AttributeError.
Proof.
  intros Hin Hc Hv.
  destruct (filter_search term cats) as [r|e] eqn:Hf;
    [|f_equal; by eapply filter_search_exn].
  exfalso. revert r Hf. induction cats as [|c' cats IH]; [done|].
  intros r Hf. simpl in Hf.
  destruct (matches_search term c') as [b|e'] eqn:Hm; simpl in Hf;
    [|discriminate].
  destruct (filter_search term cats) as [r'|e''] eqn:Hr; simpl in Hf;
    [|discriminate].
  destruct Hin as [->|Hin].
  - rewrite (matches_search_bad_code term c v Hc Hv) in Hm. discriminate.
  - by apply (IH Hin r').
Qed.

(** X8: the search does not guard the [code] attribute. With a
    non-empty search term, one stored record whose [code] is [None]
    (or any value that is not a string) makes the whole request raise
    [AttributeError], wherever the record stands and whatever the other
    records match. *)
Theorem search_raises_on_null_code q search cats c v :
  q_search q = Some search -> search <> "" ->
  In c cats -> c !! "code" = Some v -> (forall s, v <> PStr s) ->
  get_file_categories q cats = Raise AttributeError.
Proof.
  intros Hq Hs Hin Hc Hv. unfold get_file_categories, nonempty.
  rewrite Hq. destruct (String.eqb_spec search ""); [done|].
  by rewrite (filter_search_bad_code _ cats c v Hin Hc Hv).
Qed.

(** *** What the endpoint returns *)

Lemma filter_search_incl term cats kept :
  filter_search term cats = Return kept ->
  incl kept cats /\ (length kept <= length cats)%nat.
Proof.
  revert kept. induction cats as [|c cats IH]; simpl; intros kept Hf.
  - injection Hf as <-. split; [apply incl_refl | done].
  - destruct (matches_search term c) as [b|e]; simpl in Hf; [|discriminate].
    destruct (filter_search term cats) as [r|e]; simpl in Hf; [|discriminate].
    injection Hf as <-. destruct (IH r Logic.eq_refl) as [Hi Hl].
    destruct b; split; simpl; try lia.
    + apply incl_cons; [by left | by apply incl_tl].
    + by apply incl_tl.
Qed.

Lemma slice_incl {A} (l : list A) (start stop : Z) : incl (slice l start stop) l.
Proof.
  unfold slice. intros x Hx.
  apply list_elem_of_In in Hx. apply list_elem_of_In.
  eapply elem_of_sublist; [exact Hx|].
  etrans; [apply sublist_take | apply sublist_drop].
Qed.

Lemma matches_status_attr status c :
  matches_status status c = true -> c !! "status" = Some (PStr status).
Proof.
  unfold matches_status.
  destruct (c !! "status") as [[|s|n|t|b]|]; try done.
  intros E. apply String.eqb_eq in E. by subst.
Qed.

(** X9: whenever the endpoint answers, every item of the page is one of
    the stored records, [total] counts at most the stored records, and
    under a status filter every item carries exactly that status. *)
Theorem listing_returns_stored_records q cats pg :
  get_file_categories q cats = Return pg ->
  (forall item, In item (items pg) -> In item cats) /\
  0 <= total pg <= Z.of_nat (length cats) /\
  (forall status,
     q_status q = Some status -> status <> "" ->
     forall item, In item (items pg) ->
                  item !! "status" = Some (PStr status)).
Proof.
  unfold get_file_categories. intros Hr.
  destruct (match nonempty (q_search q) with
            | Some search => filter_search (str_lower search) cats
            | None => Return cats
            end) as [found|e] eqn:Hfound; simpl in Hr; [|discriminate].
  assert (Hf : incl found cats /\ (length found <= length cats)%nat).
  { destruct (nonempty (q_search q)).
    - by eapply filter_search_incl.
    - injection Hfound as <-. split; [apply incl_refl | done]. }
  set (kept := match nonempty (q_status q) with
               | Some status => List.filter (matches_status status) found
               | None => found
               end) in Hr.
  assert (Hk : incl kept found /\ (length kept <= length found)%nat).
  { unfold kept. destruct (nonempty (q_status q)).
    - split; [apply incl_filter | apply filter_length_le].
    - split; [apply incl_refl | done]. }
  destruct (sort_categories (q_sort q) (q_order q) kept) as [sorted|e] eqn:Hs;
    simpl in Hr; [|discriminate].
  unfold sort_categories in Hs.
  destruct (list_sort_returned _ _ _ _ Hs) as (Hp & _ & _).
  unfold _paginate_firestore, floordiv in Hr.
  destruct (q_per_page q =? 0); simpl in Hr; [discriminate|].
  injection Hr as <-. simpl.
  assert (Hitems : forall item,
            In item (slice sorted ((q_page q - 1) * q_per_page q)
                       ((q_page q - 1) * q_per_page q + q_per_page q)) ->
            In item kept).
  { intros item Hi. apply slice_incl in Hi.
    eapply Permutation_in; [symmetry; exact Hp | exact Hi]. }
  split; [|split].
  - intros item Hi. apply Hf, Hk. by apply Hitems.
  - rewrite <- (Permutation_length Hp). lia.
  - intros status Hq Hne item Hi. apply Hitems in Hi.
    unfold kept, nonempty in Hi. rewrite Hq in Hi.
    destruct (String.eqb_spec status ""); [done|].
    apply filter_In in Hi as [_ Hm]. by apply matches_status_attr.
Qed.
End SearchFacts.

(** *** Runs of the endpoint on ASCII text *)

Definition named (code name : string) : gmap string (@pyval utc_seconds) :=
  <["code" := PStr code]> (<["name" := PStr name]> ∅).

Definition null_named (code : string) : gmap string (@pyval utc_seconds) :=
  <["code" := PStr code]> (<["name" := PNone]> ∅).

Definition uncoded : gmap string (@pyval utc_seconds) :=
  <["code" := PNone]> (<["name" := PStr "Checks"]> ∅).

Definition with_status (code status : string)
  : gmap string (@pyval utc_seconds) :=
  <["code" := PStr code]> (<["status" := PStr status]> ∅).

Definition listing :=
  @get_file_categories utc_seconds ascii_case.


Lemma search_keeps_matching_records_witness :
  listing (Query 1 20 (Some "Check") None "code" asc)
    [named "1099" "Tax forms"; null_named "CHECKS"; named "PAY" "Paychecks"]
  = listing (Query 1 20 None None "code" asc)
      [null_named "CHECKS"; named "PAY" "Paychecks"].
Proof.
  apply (@search_keeps_matching_records utc_seconds ascii_case
           (Query 1 20 (Some "Check") None "code" asc) "Check"
           [named "1099" "Tax forms"; null_named "CHECKS";
            named "PAY" "Paychecks"]);
    [reflexivity | discriminate | reflexivity].
Defined.

Lemma search_raises_on_null_code_witness :
  listing (Query 1 20 (Some "check") None "code" asc)
    [named "CHECKS" "Checks"; uncoded]
  = Raise AttributeError.
Proof.
  apply (search_raises_on_null_code _ "check" _ uncoded PNone);
    [reflexivity | discriminate | simpl; auto | reflexivity | discriminate].
Defined.

Lemma listing_returns_stored_records_witness :
  exists pg,
    listing (Query 1 2 None (Some "active") "code" desc)
      [with_status "A" "active"; with_status "B" "inactive";
       with_status "C" "active"] = Return pg /\
    total pg = 2 /\
    forall item, In item (items pg) -> item !! "status" = Some (PStr "active").
Proof.
  destruct (listing (Query 1 2 None (Some "active") "code" desc)
              [with_status "A" "active"; with_status "B" "inactive";
               with_status "C" "active"]) as [pg|e] eqn:Hr;
    [|vm_compute in Hr; discriminate].
  exists pg. split; [reflexivity|].
  destruct (@listing_returns_stored_records utc_seconds ascii_case _ _ _ Hr)
    as (_ & _ & Hst).
  split.
  - vm_compute in Hr. injection Hr as <-. reflexivity.
  - apply Hst; [reflexivity | discriminate].
Defined.

End CategoriesMore.

Module IndexesMore.
Import Indexes Samples IndexesFacts.

(** *** What the validator accepts *)

Definition nerr (r : report) : nat := length (validation_errors r).

Lemma extends_nerr r r' : extends r r' -> (nerr r <= nerr r')%nat.
Proof. intros [[es He] _]. unfold nerr. rewrite He, length_app. lia. Qed.

Lemma unclean_field_adds_error idx j f r :
  clean_field f = false -> (nerr r < nerr (validate_field idx j f r))%nat.
Proof.
  unfold clean_field, validate_field, nerr.
  destruct (f !! "fieldPath"), (f !! "order") as [o|],
           (f !! "arrayConfig") as [a|]; simpl;
    repeat match goal with
           | |- context [is_str ?v ?s] => destruct (is_str v s); simpl
           end;
    intros Hc; try discriminate; rewrite ?length_app; simpl; lia.
Qed.

Lemma unclean_fields_add_error idx j fs r :
  forallb clean_field fs = false ->
  (nerr r < nerr (validate_fields idx j fs r))%nat.
Proof.
  revert j r. induction fs as [|f fs IH]; intros j r Hc; simpl in *.
  - discriminate.
  - destruct (clean_field f) eqn:Hf; simpl in Hc.
    + eapply Nat.le_lt_trans; [|apply IH; exact Hc].
      apply extends_nerr, validate_field_extends.
    + eapply Nat.lt_le_trans; [apply unclean_field_adds_error; exact Hf|].
      apply extends_nerr, validate_fields_extends.
Qed.

Lemma add_error_nerr msg r : nerr (add_error msg r) = S (nerr r).
Proof. unfold nerr, add_error. simpl. rewrite length_app. simpl. lia. Qed.

Lemma unclean_def_adds_error idx d r :
  clean_def d = false -> (nerr r < nerr (validate_index idx d r))%nat.
Proof.
  unfold clean_def, validate_index. intros Hc.
  destruct (collectionGroup d) as [c|], (fields d) as [[|f fs]|];
    simpl in Hc; try discriminate;
    first
      [ apply (unclean_fields_add_error idx 0%nat (f :: fs)); exact Hc
      | simpl; rewrite ?add_error_nerr; lia
      | eapply Nat.lt_le_trans;
          [|apply extends_nerr, validate_fields_extends];
        rewrite ?add_error_nerr; lia ].
Qed.

Lemma unclean_defs_add_error idx ds r :
  forallb clean_def ds = false ->
  (nerr r < nerr (validate_from idx ds r))%nat.
Proof.
  revert idx r. induction ds as [|d ds IH]; intros idx r Hc; simpl in *.
  - discriminate.
  - destruct (clean_def d) eqn:Hd; simpl in Hc.
    + eapply Nat.le_lt_trans; [|apply IH; exact Hc].
      apply extends_nerr, validate_index_extends.
    + eapply Nat.lt_le_trans; [apply unclean_def_adds_error; exact Hd|].
      apply extends_nerr, validate_from_extends.
Qed.

(** X10: the validator accepts a configuration exactly when every
    definition has the [collectionGroup] key and a non-empty [fields]
    array, and every field has a [fieldPath], at least one of [order]
    and [arrayConfig], an [order] (if any) that is ['ASCENDING'] or
    ['DESCENDING'] and an [arrayConfig] (if any) that is ['CONTAINS'].
    The values of [collectionGroup] and [fieldPath] are not looked at. *)
Theorem valid_iff_all_clean (indexes : list index_def) :
  is_valid (validate_indexes indexes) = forallb clean_def indexes /\
  (v_code (validate_indexes indexes) = 200 <->
   forallb clean_def indexes = true).
Proof.
  assert (Hv : is_valid (validate_indexes indexes) = forallb clean_def indexes).
  { destruct (forallb clean_def indexes) eqn:Hc.
    - apply is_valid_iff.
      by apply (clean_defs_no_error 0 indexes (Report [] [])).
    - pose proof (unclean_defs_add_error 0 indexes (Report [] []) Hc) as Hlt.
      unfold validate_indexes, nerr in *. simpl in *.
      destruct (validation_errors _); simpl in *; [lia | done]. }
  split; [exact Hv|].
  rewrite <- Hv. unfold validate_indexes. simpl.
  destruct (length _ =? 0)%nat; split; done.
Qed.

(** *** Every broken rule is reported at its position *)

Definition missing_path (idx j : nat) : string :=
  (at_field idx j ++ ": missing 'fieldPath'")%string.
Definition missing_kind (idx j : nat) : string :=
  (at_field idx j ++ ": must have either 'order' or 'arrayConfig'")%string.
Definition bad_order (idx j : nat) : string :=
  (at_field idx j ++ ": 'order' must be 'ASCENDING' or 'DESCENDING'")%string.
Definition bad_array_config (idx j : nat) : string :=
  (at_field idx j ++ ": 'arrayConfig' must be 'CONTAINS'")%string.
Definition missing_fields (idx : nat) : string :=
  (at_index idx ++ ": missing or empty 'fields' array")%string.

(** The messages a field calls for. *)
Definition field_faults (idx j : nat) (f : field_obj) : list string :=
  (if bool_decide (is_Some (f !! "fieldPath")) then [] else [missing_path idx j])
  ++ (if bool_decide (is_Some (f !! "order"))
         || bool_decide (is_Some (f !! "arrayConfig"))
      then [] else [missing_kind idx j])
  ++ match f !! "order" with
     | Some o => if is_str o "ASCENDING" || is_str o "DESCENDING"
                 then [] else [bad_order idx j]
     | None => []
     end
  ++ match f !! "arrayConfig" with
     | Some a => if is_str a "CONTAINS" then [] else [bad_array_config idx j]
     | None => []
     end.

Lemma validate_field_errors idx j f r :
  validation_errors (validate_field idx j f r)
  = validation_errors r ++ field_faults idx j f.
Proof.
  unfold validate_field, field_faults,
    missing_path, missing_kind, bad_order, bad_array_config.
  destruct (f !! "fieldPath"), (f !! "order") as [o|],
           (f !! "arrayConfig") as [a|]; simpl;
    repeat match goal with
           | |- context [is_str ?v ?s] => destruct (is_str v s); simpl
           end;
    rewrite <- ?app_assoc, ?app_nil_r; reflexivity.
Qed.

Lemma validate_fields_fault idx j0 fs j f m r :
  fs !! j = Some f -> In m (field_faults idx (j0 + j) f) ->
  In m (validation_errors (validate_fields idx j0 fs r)).
Proof.
  revert j0 j r. induction fs as [|g fs IH]; intros j0 j r Hj Hm; [done|].
  destruct j as [|j]; simpl in *.
  - injection Hj as ->. rewrite Nat.add_0_r in Hm.
    eapply extends_error; [apply validate_fields_extends|].
    rewrite validate_field_errors. apply in_or_app. by right.
  - apply (IH (S j0) j); [done|].
    by replace (S j0 + j)%nat with (j0 + S j)%nat by lia.
Qed.

Lemma validate_from_fault idx0 ds k d r m :
  ds !! k = Some d ->
  (forall r', In m (validation_errors (validate_index (idx0 + k) d r'))) ->
  In m (validation_errors (validate_from idx0 ds r)).
Proof.
  revert idx0 k r. induction ds as [|d' ds IH]; intros idx0 k r Hk Hm; [done|].
  destruct k as [|k]; simpl in *.
  - injection Hk as ->. rewrite Nat.add_0_r in Hm.
    eapply extends_error; [apply validate_from_extends | apply Hm].
  - apply (IH (S idx0) k); [done|]. intros r'.
    replace (S idx0 + k)%nat with (idx0 + S k)%nat by lia. apply Hm.
Qed.

Lemma validate_index_field_fault idx d fs j f m r :
  fields d = Some fs -> fs !! j = Some f -> In m (field_faults idx j f) ->
  In m (validation_errors (validate_index idx d r)).
Proof.
  intros Hfs Hj Hm. unfold validate_index. rewrite Hfs.
  by apply (validate_fields_fault idx 0 fs j f).
Qed.

Lemma validate_index_missing_fields idx d r :
  fields d = None \/ fields d = Some [] ->
  In (missing_fields idx) (validation_errors (validate_index idx d r)).
Proof.
  intros Hfs. unfold validate_index.
  destruct Hfs as [-> | ->]; simpl;
    destruct (collectionGroup d); simpl;
    apply in_or_app; right; by left.
Qed.

(** X11: every broken rule is reported with the position of the
    definition and of the field: a missing or empty [fields] array, a
    field without [fieldPath], a field with neither [order] nor
    [arrayConfig], an [order] that is not one of the two directions,
    and an [arrayConfig] that is not ['CONTAINS'] each put their own
    message into the error list. *)
Theorem broken_rules_are_reported (indexes : list index_def) idx d :
  indexes !! idx = Some d ->
  (fields d = None \/ fields d = Some [] ->
   In (missing_fields idx) (errors (validate_indexes indexes))) /\
  (forall fs j f,
     fields d = Some fs -> fs !! j = Some f ->
     (f !! "fieldPath" = None ->
      In (missing_path idx j) (errors (validate_indexes indexes))) /\
     (f !! "order" = None -> f !! "arrayConfig" = None ->
      In (missing_kind idx j) (errors (validate_indexes indexes))) /\
     (forall o, f !! "order" = Some o ->
                o <> JStr "ASCENDING" -> o <> JStr "DESCENDING" ->
      In (bad_order idx j) (errors (validate_indexes indexes))) /\
     (forall a, f !! "arrayConfig" = Some a -> a <> JStr "CONTAINS" ->
      In (bad_array_config idx j) (errors (validate_indexes indexes)))).
Proof.
  intros Hd.
  assert (Hlift : forall m,
            (forall r', In m (validation_errors (validate_index idx d r'))) ->
            In m (errors (validate_indexes indexes))).
  { intros m Hm. apply (validate_from_fault 0 indexes idx d); done. }
  assert (Hstr : forall v s, v <> JStr s -> is_str v s = false).
  { intros v s Hv. destruct v; simpl; try done.
    destruct (String.eqb_spec s0 s); [by subst|done]. }
  split.
  - intros Hfs. apply Hlift. intros r'. by apply validate_index_missing_fields.
  - intros fs j f Hfs Hj.
    assert (Hfault : forall m, In m (field_faults idx j f) ->
                               In m (errors (validate_indexes indexes))).
    { intros m Hm. apply Hlift. intros r'.
      by apply (validate_index_field_fault idx d fs j f). }
    repeat split.
    + intros Hp. apply Hfault. unfold field_faults. rewrite Hp.
      rewrite !in_app_iff. left. by left.
    + intros Ho Ha. apply Hfault. unfold field_faults. rewrite Ho, Ha.
      rewrite !in_app_iff. right. left. by left.
    + intros o Ho H1 H2. apply Hfault. unfold field_faults. rewrite Ho.
      rewrite (Hstr o _ H1), (Hstr o _ H2).
      rewrite !in_app_iff. right. right. left. by left.
    + intros a Ha H1. apply Hfault. unfold field_faults. rewrite Ha.
      rewrite (Hstr a _ H1).
      rewrite !in_app_iff. right. right. right. by left.
Qed.

Definition sloppy : index_def :=
  IndexDef (Some (JStr "users"))
           (Some [ordered_field "email" "ASCENDING";
                  <["order" := JStr "UP"]> ∅])
           None.

Lemma broken_rules_are_reported_witness :
  In "Index 1, field 1: missing 'fieldPath'"
     (errors (validate_indexes [users_by_email; sloppy])) /\
  In "Index 1, field 1: 'order' must be 'ASCENDING' or 'DESCENDING'"
     (errors (validate_indexes [users_by_email; sloppy])).
Proof.
  destruct (broken_rules_are_reported [users_by_email; sloppy] 1 sloppy
              Logic.eq_refl) as [_ Hf].
  destruct (Hf _ 1%nat (<["order" := JStr "UP"]> ∅) Logic.eq_refl Logic.eq_refl)
    as (Hp & _ & Ho & _).
  split.
  - apply Hp. reflexivity.
  - apply (Ho (JStr "UP")); [reflexivity | discriminate | discriminate].
Defined.

(** *** Where warnings come from *)

Definition has_both (f : field_obj) : bool :=
  bool_decide (is_Some (f !! "order")) &&
  bool_decide (is_Some (f !! "arrayConfig")).

Definition field_warning (idx j : nat) (f : field_obj) : list string :=
  if has_both f then [both_warning idx j] else [].

Lemma validate_field_warnings idx j f r :
  validation_warnings (validate_field idx j f r)
  = validation_warnings r ++ field_warning idx j f.
Proof.
  unfold validate_field, field_warning, has_both, both_warning.
  destruct (f !! "fieldPath"), (f !! "order") as [o|],
           (f !! "arrayConfig") as [a|]; simpl;
    repeat match goal with
           | |- context [is_str ?v ?s] => destruct (is_str v s); simpl
           end;
    rewrite ?app_nil_r; reflexivity.
Qed.

Lemma validate_fields_warning_inv idx j0 fs r w :
  In w (validation_warnings (validate_fields idx j0 fs r)) ->
  In w (validation_warnings r) \/
  exists j f, fs !! j = Some f /\ In w (field_warning idx (j0 + j) f).
Proof.
  revert j0 r. induction fs as [|g fs IH]; intros j0 r Hw; simpl in Hw.
  - by left.
  - apply IH in Hw as [Hw|(j & f & Hj & Hw)].
    + rewrite validate_field_warnings in Hw.
      apply in_app_or in Hw as [Hw|Hw]; [by left|].
      right. exists 0%nat, g. split; [done|]. by rewrite Nat.add_0_r.
    + right. exists (S j), f. split; [done|].
      by replace (j0 + S j)%nat with (S j0 + j)%nat by lia.
Qed.

Lemma validate_index_warning_inv idx d r w :
  In w (validation_warnings (validate_index idx d r)) ->
  In w (validation_warnings r) \/
  exists fs j f, fields d = Some fs /\ fs !! j = Some f /\
                 In w (field_warning idx j f).
Proof.
  unfold validate_index. intros Hw.
  destruct (fields d) as [fs|] eqn:Hfs.
  - apply validate_fields_warning_inv in Hw as [Hw|(j & f & Hj & Hw)].
    + left. by destruct (collectionGroup d), fs.
    + right. by exists fs, j, f.
  - left. by destruct (collectionGroup d).
Qed.

Lemma validate_from_warning_inv idx0 ds r w :
  In w (validation_warnings (validate_from idx0 ds r)) ->
  In w (validation_warnings r) \/
  exists k d fs j f,
    ds !! k = Some d /\ fields d = Some fs /\ fs !! j = Some f /\
    In w (field_warning (idx0 + k) j f).
Proof.
  revert idx0 r. induction ds as [|d ds IH]; intros idx0 r Hw; simpl in Hw.
  - by left.
  - apply IH in Hw as [Hw|(k & d' & fs & j & f & Hk & Hfs & Hj & Hw)].
    + apply validate_index_warning_inv in Hw as [Hw|(fs & j & f & Hfs & Hj & Hw)];
        [by left|].
      right. exists 0%nat, d, fs, j, f. by rewrite Nat.add_0_r.
    + right. exists (S k), d', fs, j, f. repeat split; try done.
      by replace (idx0 + S k)%nat with (S idx0 + k)%nat by lia.
Qed.

(** X12: warnings have one source only. Every warning in the report is
    the message for a field, at the position named in the message, that
    carries both [order] and [arrayConfig]; a configuration without such
    a field has no warnings. *)
Theorem warnings_only_for_both (indexes : list index_def) :
  (forall w,
     In w (warnings (validate_indexes indexes)) ->
     exists idx d fs j f,
       indexes !! idx = Some d /\ fields d = Some fs /\ fs !! j = Some f /\
       is_Some (f !! "order") /\ is_Some (f !! "arrayConfig") /\
       w = both_warning idx j) /\
  ((forall d fs f, In d indexes -> fields d = Some fs -> In f fs ->
                   has_both f = false) ->
   warnings (validate_indexes indexes) = []).
Proof.
  assert (Hsrc : forall w,
     In w (warnings (validate_indexes indexes)) ->
     exists idx d fs j f,
       indexes !! idx = Some d /\ fields d = Some fs /\ fs !! j = Some f /\
       is_Some (f !! "order") /\ is_Some (f !! "arrayConfig") /\
       w = both_warning idx j).
  { intros w Hw. unfold validate_indexes in Hw. simpl in Hw.
    apply validate_from_warning_inv in Hw
      as [[]|(k & d & fs & j & f & Hk & Hfs & Hj & Hw)].
    unfold field_warning in Hw. destruct (has_both f) eqn:Hb; [|done].
    destruct Hw as [<-|[]]. unfold has_both in Hb.
    apply andb_true_iff in Hb as [Ho Ha].
    apply bool_decide_eq_true in Ho, Ha.
    exists k, d, fs, j, f. done. }
  split; [exact Hsrc|].
  intros Hnone. destruct (warnings (validate_indexes indexes)) as [|w ws] eqn:E;
    [done|].
  destruct (Hsrc w) as (k & d & fs & j & f & Hk & Hfs & Hj & Ho & Ha & _);
    [by left|].
  assert (Hb : has_both f = false).
  { apply (Hnone d fs f); [|done|].
    - apply list_elem_of_In. by eapply list_elem_of_lookup_2.
    - apply list_elem_of_In. by eapply list_elem_of_lookup_2. }
  unfold has_both in Hb. apply andb_false_iff in Hb as [Hb|Hb];
    apply bool_decide_eq_false in Hb; done.
Qed.

Lemma warnings_only_for_both_witness :
  warnings (validate_indexes [users_by_email; logs_by_tag]) = [].
Proof.
  apply (proj2 (warnings_only_for_both [users_by_email; logs_by_tag])).
  intros d fs f Hd Hfs Hf. simpl in Hd.
  destruct Hd as [<-|[<-|[]]]; injection Hfs as <-; simpl in Hf;
    destruct Hf as [<-|[<-|[]]]; reflexivity.
Defined.

(** *** The request body *)

Definition api_keys : list string := ["fieldPath"; "order"; "arrayConfig"].

Lemma in_api_keys k :
  In k api_keys <-> k = "fieldPath" \/ k = "order" \/ k = "arrayConfig".
Proof.
  unfold api_keys. simpl. split.
  - intros [<- | [<- | [<- | []]]]; auto.
  - intros [-> | [-> | ->]]; auto.
Qed.

Lemma to_api_field_lookup f k :
  to_api_field f !! k =
    if bool_decide (In k api_keys) then f !! k else None.
Proof.
  unfold to_api_field.
  destruct (f !! "fieldPath") as [p|] eqn:Hp, (f !! "order") as [o|] eqn:Ho,
           (f !! "arrayConfig") as [a|] eqn:Ha;
    case_bool_decide as Hk;
    try (apply in_api_keys in Hk as [-> | [-> | ->]];
         rewrite ?lookup_insert_eq, ?lookup_insert_ne, ?lookup_empty by done;
         rewrite ?lookup_insert_eq, ?lookup_insert_ne, ?lookup_empty by done;
         done);
    rewrite in_api_keys in Hk;
    repeat (rewrite lookup_insert_ne by (intros <-; tauto)); apply lookup_empty.
Qed.

Lemma truthy_obj (m : gmap string json) :
  truthy (JObj m) = true <-> exists k, is_Some (m !! k).
Proof.
  simpl. destruct (map_to_list m) as [|[k v] l] eqn:E.
  - apply map_to_list_empty_iff in E as ->. split; [done|].
    intros [k [v Hv]]. by rewrite lookup_empty in Hv.
  - split; [|done]. intros _. exists k, v.
    apply elem_of_map_to_list. rewrite E. by left.
Qed.

(** A field that has at least one of the three keys. *)
Definition usable (f : field_obj) : bool := truthy (JObj (to_api_field f)).

Lemma usable_iff f : usable f = true <-> exists k, In k api_keys /\ is_Some (f !! k).
Proof.
  unfold usable. rewrite truthy_obj. split.
  - intros [k Hk]. rewrite to_api_field_lookup in Hk.
    case_bool_decide; [by exists k | by destruct Hk].
  - intros (k & Hin & Hk). exists k. rewrite to_api_field_lookup.
    by rewrite bool_decide_eq_true_2.
Qed.

Lemma to_api_fields_filter fs :
  to_api_fields fs = map to_api_field (List.filter usable fs).
Proof.
  induction fs as [|f fs IH]; [done|].
  cbn [to_api_fields List.filter]. fold (usable f).
  destruct (usable f); simpl; by rewrite IH.
Qed.

(** X13: the request body forwards each field as it is given. The
    mapped field has, under [fieldPath], [order] and [arrayConfig],
    exactly what the definition has there, and no other key; so a field
    with both [order] and [arrayConfig] is sent with both. Only fields
    with none of the three keys are left out, and the others keep their
    order. *)
Theorem request_forwards_fields :
  (forall f k, In k api_keys -> to_api_field f !! k = f !! k) /\
  (forall f k, ~ In k api_keys -> to_api_field f !! k = None) /\
  (forall fs, to_api_fields fs = map to_api_field (List.filter usable fs)) /\
  (forall f, usable f = true <->
             exists k, In k api_keys /\ is_Some (f !! k)).
Proof.
  split; [|split; [|split]].
  - intros f k Hk. rewrite to_api_field_lookup. by rewrite bool_decide_eq_true_2.
  - intros f k Hk. rewrite to_api_field_lookup. by rewrite bool_decide_eq_false_2.
  - apply to_api_fields_filter.
  - apply usable_iff.
Qed.

Lemma request_forwards_fields_witness :
  to_api_field (<["comment" := JStr "x"]> both_field) !! "order"
    = Some (JStr "ASCENDING") /\
  to_api_field (<["comment" := JStr "x"]> both_field) !! "arrayConfig"
    = Some (JStr "CONTAINS") /\
  to_api_field (<["comment" := JStr "x"]> both_field) !! "comment" = None.
Proof.
  destruct request_forwards_fields as (Hin & Hout & _).
  split; [|split].
  - rewrite Hin; [reflexivity | simpl; auto].
  - rewrite Hin; [reflexivity | simpl; auto].
  - apply Hout. simpl. intros [H|[H|[H|[]]]]; discriminate.
Defined.

(** *** Which definitions are skipped, and which are submitted *)

(** The collection is missing or false in a condition, or no field has
    any of the three keys. *)
Definition skipped (d : index_def) : bool :=
  match collectionGroup d with
  | None => true
  | Some c =>
      negb (truthy c) ||
      forallb (fun f => negb (usable f)) (default [] (fields d))
  end.

Lemma filter_usable_nil fs :
  List.filter usable fs = [] <-> forallb (fun f => negb (usable f)) fs = true.
Proof.
  induction fs as [|f fs IH]; simpl; [done|].
  destruct (usable f); simpl; [split; discriminate | exact IH].
Qed.

(** The text of one field in the label. *)
Definition field_text (f : field_obj) : string :=
  match f !! "fieldPath", f !! "order" with
  | Some (JStr path), Some (JStr order) => (path ++ " ") ++ order
  | Some (JStr path), _ => path ++ " ARRAY_CONTAINS"
  | _, _ => ""
  end.

(** A field that passes validation and whose path is a string. *)
Definition typed_field (f : field_obj) : bool :=
  clean_field f &&
  match f !! "fieldPath" with Some (JStr _) => true | _ => false end.

Lemma is_str_eq v s : is_str v s = true -> v = JStr s.
Proof.
  destruct v; simpl; try done. intros H. apply String.eqb_eq in H. by subst.
Qed.

Lemma typed_field_usable f : typed_field f = true -> usable f = true.
Proof.
  unfold typed_field. intros H. apply andb_true_iff in H as [_ H].
  apply usable_iff. exists "fieldPath". split; [simpl; auto|].
  by destruct (f !! "fieldPath").
Qed.

Lemma typed_field_descr f :
  typed_field f = true -> field_descr (to_api_field f) = Return (field_text f).
Proof.
  unfold field_descr, getitem. rewrite !to_api_field_lookup.
  rewrite !bool_decide_eq_true_2 by (apply in_api_keys; auto).
  unfold typed_field, clean_field, field_text.
  destruct (f !! "fieldPath") as [[| | |p| |]|], (f !! "order") as [o|],
           (f !! "arrayConfig") as [a|]; simpl; try done;
    rewrite ?andb_true_r; intros H;
    repeat match goal with
           | H : _ && _ = true |- _ => apply andb_true_iff in H as [? ?]
           | H : _ || _ = true |- _ => apply orb_true_iff in H as [?|?]
           | H : is_str _ _ = true |- _ => apply is_str_eq in H; subst
           end; try done.
Qed.

Lemma typed_fields_descrs fs :
  forallb typed_field fs = true ->
  to_api_fields fs = map to_api_field fs /\
  field_descrs (map to_api_field fs) = Return (map field_text fs).
Proof.
  intros Hall. split.
  - rewrite to_api_fields_filter. f_equal.
    induction fs as [|f fs IH]; [done|]. cbn [forallb List.filter] in *.
    apply andb_true_iff in Hall as [Hf Hfs].
    by rewrite (typed_field_usable f Hf), (IH Hfs).
  - induction fs as [|f fs IH]; [done|]. cbn [forallb map field_descrs] in *.
    apply andb_true_iff in Hall as [Hf Hfs].
    by rewrite (typed_field_descr f Hf), (IH Hfs).
Qed.

Section PrepareFacts.
Context `{PyLib} {client : Type} `{IndexApi client}.

Lemma prepare_skipped d :
  skipped d = true ->
  exists o, prepare d = Return (Skip o) /\ o_status o = Skipped.
Proof.
  unfold skipped, prepare.
  destruct (collectionGroup d) as [c|]; [|by eauto].
  destruct (truthy c); simpl; [|by eauto].
  intros Hf. apply filter_usable_nil in Hf.
  rewrite to_api_fields_filter, Hf. simpl. by eauto.
Qed.

Lemma prepare_not_skipped d o :
  skipped d = false -> prepare d <> Return (Skip o).
Proof.
  unfold skipped, prepare.
  destruct (collectionGroup d) as [c|]; [|done].
  destruct (truthy c); simpl; [|done].
  intros Hf Hp.
  rewrite to_api_fields_filter in Hp.
  destruct (List.filter usable (default [] (fields d))) as [|f fs] eqn:E.
  - apply filter_usable_nil in E. congruence.
  - simpl in Hp. destruct (index_name_str _ _); simpl in Hp; discriminate.
Qed.

(** X14: a definition is skipped exactly when its collection is
    missing or false in a condition (the empty string included), or when
    none of its fields has a [fieldPath], [order] or [arrayConfig]. A
    skipped definition is recorded as [Skipped], sets [has_errors], and
    the client is not called: the service is left as it was. *)
Theorem skipped_definitions_make_no_call :
  (forall parent d (st : loop_state client),
     skipped d = true ->
     exists o,
       create_index_for parent d st
         = Return (LoopState (results st ++ [o]) true (api st)) /\
       o_status o = Skipped) /\
  (forall d o, skipped d = false -> prepare d <> Return (Skip o)).
Proof.
  split.
  - intros parent d st Hs.
    destruct (prepare_skipped d Hs) as (o & Hp & Ho).
    exists o. split; [|done]. unfold create_index_for. by rewrite Hp.
  - intros d o. apply prepare_not_skipped.
Qed.

(** X15: a definition that passes validation, whose collection is true
    in a condition and whose field paths are strings, is always
    submitted: preparing it raises nothing, the body carries every
    field (restricted to the three keys) and the declared scope, with
    ['COLLECTION'] as default, and the label lists each path followed
    by its order, or by [ARRAY_CONTAINS] when it has none. *)
Theorem valid_definitions_are_submitted d collection_id fs :
  collectionGroup d = Some collection_id ->
  truthy collection_id = true ->
  fields d = Some fs -> fs <> [] ->
  forallb typed_field fs = true ->
  prepare d =
    Return (Submit collection_id
              (IndexBody (default (JStr "COLLECTION") (queryScope d))
                         (map to_api_field fs))
              (py_str collection_id ++ " ("
                 ++ join ", " (map field_text fs) ++ ")")).
Proof.
  intros Hc Ht Hfs Hne Htyped. unfold prepare. rewrite Hc, Ht, Hfs. simpl.
  destruct (typed_fields_descrs fs Htyped) as [Hapi Hdescr].
  rewrite Hapi. destruct fs as [|f fs]; [done|].
  cbn [map]. unfold index_name_str.
  change (to_api_field f :: map to_api_field fs)
    with (map to_api_field (f :: fs)).
  by rewrite Hdescr.
Qed.
End PrepareFacts.

Lemma skipped_definitions_make_no_call_witness :
  exists o,
    @create_index_for plain_runtime _ scripted parent_path
      (IndexDef (Some (JStr "users")) (Some [∅]) None)
      (LoopState [] false [started "op/1"])
    = Return (LoopState [o] true [started "op/1"]) /\
    o_status o = Skipped.
Proof.
  assert (Hs : skipped (IndexDef (Some (JStr "users")) (Some [∅]) None) = true)
    by (vm_compute; reflexivity).
  destruct (proj1 (@skipped_definitions_make_no_call plain_runtime _ scripted)
              parent_path (IndexDef (Some (JStr "users")) (Some [∅]) None)
              (LoopState [] false [started "op/1"]) Hs)
    as (o & Hr & Ho).
  exists o. split; [exact Hr | exact Ho].
Defined.

Lemma valid_definitions_are_submitted_witness :
  @prepare plain_runtime logs_by_tag =
    Return (Submit (JStr "activity_logs")
              (IndexBody (JStr "COLLECTION")
                 [array_field "tags"; ordered_field "timestamp" "DESCENDING"])
              "activity_logs (tags ARRAY_CONTAINS, timestamp DESCENDING)").
Proof.
  assert (Ht : forallb typed_field
                 [array_field "tags"; ordered_field "timestamp" "DESCENDING"]
               = true) by (vm_compute; reflexivity).
  rewrite (@valid_definitions_are_submitted plain_runtime logs_by_tag
             (JStr "activity_logs")
             [array_field "tags"; ordered_field "timestamp" "DESCENDING"]
             Logic.eq_refl Logic.eq_refl Logic.eq_refl
             ltac:(discriminate) Ht).
  vm_compute. reflexivity.
Defined.

(** *** Outcomes follow the definitions *)

Section OutcomeFacts.
Context `{PyLib} {client : Type} `{IndexApi client}.
Implicit Types (st : loop_state client) (d : index_def).

(** [o] is an outcome for [d]: the skip outcome of [d], or an outcome
    that carries the label of [d] and is not [Skipped]. *)
Definition answers d (o : outcome) : Prop :=
  match prepare d with
  | Return (Skip o') => o = o'
  | Return (Submit _ _ label) => o_index o = JStr label /\ o_status o <> Skipped
  | Raise _ => False
  end.

Lemma create_index_for_answers parent d st st' :
  create_index_for parent d st = Return st' ->
  exists o, results st' = results st ++ [o] /\ answers d o.
Proof.
  unfold create_index_for, answers. intros Hr.
  destruct (prepare d) as [[o|cid body label]|x]; simpl in Hr; [| |discriminate].
  - injection Hr as <-. by exists o.
  - unfold submit in Hr.
    destruct (create_index _ _ _) as [[op|e|msg] api'].
    + injection Hr as <-. eexists. by split.
    + destruct (error_content_of e) as [text|x]; simpl in Hr; [|discriminate].
      destruct (already_exists e text).
      * injection Hr as <-. eexists. by split.
      * destruct (error_detail_of e text) as [dt|x]; simpl in Hr;
          [|discriminate].
        injection Hr as <-. eexists. by split.
    + injection Hr as <-. eexists. by split.
Qed.

Lemma create_indexes_loop_answers parent ds st st' :
  create_indexes_loop parent ds st = Return st' ->
  exists outcomes,
    results st' = results st ++ outcomes /\ Forall2 answers ds outcomes.
Proof.
  revert st. induction ds as [|d ds IH]; intros st Hr; simpl in Hr.
  - injection Hr as <-. exists []. split; [by rewrite app_nil_r | constructor].
  - destruct (create_index_for parent d st) as [st1|x] eqn:H1;
      simpl in Hr; [|discriminate].
    destruct (create_index_for_answers _ _ _ _ H1) as (o & Ho & Ha).
    destruct (IH _ Hr) as (os & Hos & Hall).
    exists (o :: os). split; [by rewrite Hos, Ho, <- app_assoc|].
    by constructor.
Qed.

(** X16: a batch that returns reports the definitions in their order:
    the i-th outcome belongs to the i-th definition. It is that
    definition's skip outcome, or it carries that definition's label
    and is [Initiated], [Exists] or [Error]. *)
Theorem outcomes_follow_definitions parent firestore_admin ds resp c' :
  create_indexes parent firestore_admin ds = Return (resp, c') ->
  Forall2 answers ds (r_results resp).
Proof.
  unfold create_indexes. intros Hr. destruct ds as [|d ds].
  - injection Hr as <- <-. constructor.
  - destruct (create_indexes_loop _ _ _) as [st|x] eqn:Hl; simpl in Hr;
      [|discriminate].
    injection Hr as <- <-. simpl.
    destruct (create_indexes_loop_answers _ _ _ _ Hl) as (os & Hos & Hall).
    simpl in Hos. by rewrite Hos.
Qed.

(** *** The detail of an error outcome *)

(** The payload parses to JSON that the detail extraction cannot
    handle: it is not an object, or its [error] member is not one. *)
Definition misshapen (error_content : string) : bool :=
  match json_loads error_content with
  | Some (JObj payload) =>
      match payload !! "error" with
      | Some (JObj _) | None => false
      | Some _ => true
      end
  | Some _ => true
  | None => false
  end.

Lemma error_detail_misshapen e c :
  misshapen c = true -> error_detail_of e c = Raise AttributeError.
Proof.
  unfold misshapen, error_detail_of.
  destruct (json_loads c) as [[| | | | |payload]|]; try done.
  destruct (payload !! "error") as [[| | | | |info]|]; simpl; done.
Qed.

Lemma iadd_str_cases v s :
  (exists w, iadd_str v s = Return w) \/ iadd_str v s = Raise TypeError.
Proof. destruct v; simpl; eauto. Qed.

Lemma error_detail_shaped e c :
  misshapen c = false -> exists dt, error_detail_of e c = Return dt.
Proof.
  unfold misshapen, error_detail_of.
  destruct (json_loads c) as [[| | | | |payload]|]; try done; [|by eauto].
  destruct (payload !! "error") as [[| | | | |info]|]; simpl; try done.
  - intros _. destruct (info !! "details") as [dts|]; [|by eauto].
    destruct (iadd_str_cases
                (default (JStr (http_str e)) (info !! "message"))
                (" Details: " ++ json_dumps dts)) as [[w ->]| ->]; by eauto.
  - intros _. rewrite lookup_empty. by eauto.
Qed.


(** X18: what an [HttpError] does to the loop, case by case. An
    undecodable payload raises [UnicodeDecodeError], even for status
    409; a conflict records [Exists]; any other error raises
    [AttributeError] when the payload is JSON of the wrong shape, and
    records [Error] otherwise. Whatever is raised leaves the loop: the
    batch that starts with such a definition returns no result. *)
Theorem http_error_cases parent d st collection_id body label e api' rest :
  prepare d = Return (Submit collection_id body label) ->
  create_index (api st) (parent ++ "/" ++ py_str collection_id) body
    = (RaiseHttpError e, api') ->
  match utf8_decode (content e) with
  | None =>
      create_index_for parent d st = Raise UnicodeDecodeError /\
      create_indexes_loop parent (d :: rest) st = Raise UnicodeDecodeError
  | Some text =>
      if already_exists e text then
        create_index_for parent d st =
          Return (LoopState
                    (results st ++
                       [Outcome (JStr label) Exists
                                (JStr "Index already exists.")])
                    (has_errors st) api')
      else if misshapen text then
        create_index_for parent d st = Raise AttributeError /\
        create_indexes_loop parent (d :: rest) st = Raise AttributeError
      else
        exists error_detail,
          create_index_for parent d st =
            Return (LoopState
                      (results st ++ [Outcome (JStr label) Error error_detail])
                      true api')
  end.
Proof.
  intros Hp Hc.
  assert (Hstep : create_index_for parent d st =
    (error_content ← error_content_of e;
     if already_exists e error_content then
       Return (LoopState
                 (results st ++
                    [Outcome (JStr label) Exists (JStr "Index already exists.")])
                 (has_errors st) api')
     else
       error_detail ← error_detail_of e error_content;
       Return (LoopState
                 (results st ++ [Outcome (JStr label) Error error_detail])
                 true api'))).
  { unfold create_index_for. rewrite Hp. simpl.
    by rewrite (submit_http_error _ _ _ _ _ _ _ Hc). }
  cbn [create_indexes_loop]. rewrite Hstep. unfold error_content_of.
  destruct (utf8_decode (content e)) as [text|]; simpl; [|done].
  destruct (already_exists e text); [done|].
  destruct (misshapen text) eqn:Hm.
  - by rewrite (error_detail_misshapen e text Hm).
  - destruct (error_detail_shaped e text Hm) as [dt ->]. by exists dt.
Qed.
End OutcomeFacts.

Lemma outcomes_follow_definitions_witness :
  exists resp c',
    run parent_path [started "op/1"; RaiseHttpError conflict_409]
        [users_by_email; logs_by_tag] = Return (resp, c') /\
    Forall2 (@answers plain_runtime) [users_by_email; logs_by_tag]
            (r_results resp).
Proof.
  destruct (run parent_path [started "op/1"; RaiseHttpError conflict_409]
              [users_by_email; logs_by_tag]) as [[resp c']|x] eqn:Hr;
    [|vm_compute in Hr; discriminate].
  exists resp, c'. split; [reflexivity|].
  exact (@outcomes_follow_definitions plain_runtime _ scripted _ _ _ _ _ Hr).
Defined.


Lemma http_error_cases_witness :
  @create_index_for plain_runtime _ scripted parent_path logs_by_tag
    (one_call unavailable_503) = Raise AttributeError /\
  @create_indexes_loop plain_runtime _ scripted parent_path
    [logs_by_tag; users_by_email] (one_call unavailable_503)
  = Raise AttributeError.
Proof.
  pose proof (@http_error_cases plain_runtime _ scripted parent_path
                logs_by_tag (one_call unavailable_503)
                (JStr "activity_logs")
                (IndexBody (JStr "COLLECTION")
                   [array_field "tags";
                    ordered_field "timestamp" "DESCENDING"])
                "activity_logs (tags ARRAY_CONTAINS, timestamp DESCENDING)"
                unavailable_503 [] [users_by_email]) as Hcases.
  assert (Hp : @prepare plain_runtime logs_by_tag =
                 Return (Submit (JStr "activity_logs")
                           (IndexBody (JStr "COLLECTION")
                              [array_field "tags";
                               ordered_field "timestamp" "DESCENDING"])
                           "activity_logs (tags ARRAY_CONTAINS, timestamp DESCENDING)"))
    by (vm_compute; reflexivity).
  specialize (Hcases Hp Logic.eq_refl).
  assert (Hd : @utf8_decode plain_runtime (content unavailable_503)
               = Some flat_error_payload) by reflexivity.
  rewrite Hd in Hcases.
  assert (Ha : @already_exists plain_runtime unavailable_503
                 flat_error_payload = false)
    by (vm_compute; reflexivity).
  rewrite Ha in Hcases.
  assert (Hm : @misshapen plain_runtime flat_error_payload = true)
    by (vm_compute; reflexivity).
  rewrite Hm in Hcases. exact Hcases.
Defined.

(** *** A valid batch against a service that accepts every call *)

(** A definition with a collection that is true in a condition and a
    non-empty list of valid fields with string paths. *)
Definition submittable (d : index_def) : bool :=
  match collectionGroup d, fields d with
  | Some c, Some (f :: fs) => truthy c && forallb typed_field (f :: fs)
  | _, _ => false
  end.

Section AcceptingService.
Context `{PyLib} {client : Type} `{IndexApi client}.

Definition accepts_every_call : Prop :=
  forall (c : client) parent body,
    exists operation c', create_index c parent body = (Operation operation, c').

Lemma prepare_submittable d :
  submittable d = true ->
  exists collection_id body label,
    prepare d = Return (Submit collection_id body label).
Proof.
  unfold submittable, prepare.
  destruct (collectionGroup d) as [c|]; [|done].
  destruct (fields d) as [[|f fs]|]; try done.
  intros Hs. apply andb_true_iff in Hs as [Ht Htyped]. rewrite Ht.
  change (negb true) with false. cbv iota.
  change (default [] (Some (f :: fs))) with (f :: fs).
  destruct (typed_fields_descrs (f :: fs) Htyped) as [Hapi Hdescr].
  rewrite Hapi. cbn [map]. unfold index_name_str.
  change (to_api_field f :: map to_api_field fs)
    with (map to_api_field (f :: fs)).
  rewrite Hdescr. simpl. by eauto.
Qed.

Lemma create_index_for_accepted parent d (st : loop_state client) :
  accepts_every_call -> submittable d = true ->
  exists o c',
    create_index_for parent d st
      = Return (LoopState (results st ++ [o]) (has_errors st) c') /\
    o_status o = Initiated.
Proof.
  intros Hacc Hs.
  destruct (prepare_submittable d Hs) as (cid & body & label & Hp).
  unfold create_index_for. rewrite Hp. simpl. unfold submit.
  destruct (Hacc (api st) (parent ++ "/" ++ py_str cid)%string body)
    as (op & c' & ->).
  by eauto.
Qed.

Lemma create_indexes_loop_accepted parent ds (st : loop_state client) :
  accepts_every_call -> forallb submittable ds = true ->
  exists os c',
    create_indexes_loop parent ds st
      = Return (LoopState (results st ++ os) (has_errors st) c') /\
    length os = length ds /\
    Forall (fun o => o_status o = Initiated) os.
Proof.
  intros Hacc. revert st. induction ds as [|d ds IH]; intros st Hs; simpl in *.
  - exists [], (api st). rewrite app_nil_r. by destruct st.
  - apply andb_true_iff in Hs as [Hd Hds].
    destruct (create_index_for_accepted parent d st Hacc Hd)
      as (o & c1 & -> & Ho).
    simpl. destruct (IH (LoopState (results st ++ [o]) (has_errors st) c1) Hds)
      as (os & c' & -> & Hlen & Hall).
    exists (o :: os), c'. simpl. rewrite <- app_assoc.
    split; [done|]. split; [by rewrite Hlen | by constructor].
Qed.

(** X25: a valid batch against a healthy service completes. When the
    service accepts every creation call, a non-empty batch of
    definitions that pass validation, with collections that are true in
    a condition and string paths, returns the answer ["Completed"] with
    status 200 and no error flag, holding one [Initiated] outcome per
    definition. *)
Theorem healthy_batch_completes parent (firestore_admin : client) ds :
  accepts_every_call ->
  forallb submittable ds = true -> ds <> [] ->
  exists resp c',
    create_indexes parent firestore_admin ds = Return (resp, c') /\
    r_status resp = "Completed" /\
    r_code resp = 200 /\
    r_has_errors resp = false /\
    length (r_results resp) = length ds /\
    Forall (fun o => o_status o = Initiated) (r_results resp).
Proof.
  intros Hacc Hs Hne. unfold create_indexes.
  destruct ds as [|d ds]; [done|].
  destruct (create_indexes_loop_accepted parent (d :: ds)
              (LoopState [] false firestore_admin) Hacc Hs)
    as (os & c' & -> & Hlen & Hall).
  simpl. eexists. exists c'. split; [reflexivity|]. simpl. by repeat split.
Qed.
End AcceptingService.

(** A service that starts an operation for every call. *)
Definition accepting : IndexApi nat :=
  {| create_index n _ _ :=
       (Operation {[ "name" := JStr "operations/x" ]}, S n) |}.

Lemma healthy_batch_completes_witness :
  exists resp c',
    @create_indexes plain_runtime nat accepting parent_path 0%nat
      [users_by_email; logs_by_tag] = Return (resp, c') /\
    r_code resp = 200 /\
    Forall (fun o => o_status o = Initiated) (r_results resp).
Proof.
  assert (Hs : forallb submittable [users_by_email; logs_by_tag] = true)
    by (vm_compute; reflexivity).
  destruct (@healthy_batch_completes plain_runtime nat accepting parent_path
              0%nat [users_by_email; logs_by_tag])
    as (resp & c' & Hr & _ & Hc & _ & _ & Hall);
    [intros c p b; by eexists _, _ | exact Hs | discriminate |].
  exists resp, c'. split; [exact Hr|]. split; [exact Hc | exact Hall].
Defined.

End IndexesMore.

Module InfoFacts.
Import Indexes IndexesFacts Info.









Section InfoAnswer.
Context `{Flask}.

End InfoAnswer.







End InfoFacts.

Module FirebaseCliFacts.
Import FirebaseCli.

Definition version_cmd : list string := ["firebase"; "--version"].
Definition deploy_cmd : list string :=
  ["firebase"; "deploy"; "--only"; "firestore:indexes"].

Section CliFacts.
Context {world : Type} `{Subprocess world}.

(** X20: the deployment through the CLI succeeds exactly when the
    version check and then the deployment both exit with code 0, and
    it returns the output of the deployment. When the version check
    does not exit with 0 the deployment is not run: the system is left
    as the version check left it, and an exception is raised. *)
Theorem cli_success_iff_both_exit_zero (w : world) :
  (forall output w',
     create_indexes_using_firebase_cli w = (CliSuccess output, w') <->
     exists out1 err1 w1 err2,
       run w version_cmd = (Completed 0 out1 err1, w1) /\
       run w1 deploy_cmd = (Completed 0 output err2, w')) /\
  (forall v w1,
     run w version_cmd = (v, w1) ->
     (forall out err, v <> Completed 0 out err) ->
     exists message,
       create_indexes_using_firebase_cli w = (CliException message, w1)).
Proof.
  unfold create_indexes_using_firebase_cli, version_cmd, deploy_cmd. split.
  - intros output w'. split.
    + destruct (run w _) as [[rc1 out1 err1|e1] w1] eqn:H1;
        [|destruct e1; discriminate].
      destruct (Z.eqb_spec rc1 0) as [->|]; simpl; [|discriminate].
      destruct (run w1 _) as [[rc2 out2 err2|e2] w2] eqn:H2;
        [|destruct e2; discriminate].
      destruct (Z.eqb_spec rc2 0) as [->|]; simpl; [|discriminate].
      intros [= <- <-]. by exists out1, err1, w1, err2.
    + intros (out1 & err1 & w1 & err2 & -> & ->). reflexivity.
  - intros v w1 -> Hv.
    destruct v as [rc out err|e]; [|destruct e; by eauto].
    destruct (Z.eqb_spec rc 0) as [->|]; simpl; [|by eauto].
    by destruct (Hv out err).
Qed.
End CliFacts.

(** A system that has no [firebase] executable. *)
Definition bare : Subprocess nat :=
  {| run n _ := (Raised FileNotFound, S n) |}.

Lemma cli_success_iff_both_exit_zero_witness :
  exists message,
    @create_indexes_using_firebase_cli nat bare 0%nat
    = (CliException message, 1%nat).
Proof.
  apply (proj2 (@cli_success_iff_both_exit_zero nat bare 0%nat)
           (Raised FileNotFound) 1%nat);
    [reflexivity | discriminate].
Defined.

End FirebaseCliFacts.

Module CrudFacts.
Import Indexes Categories Samples Crud.

(** The answer refuses the request. *)
Definition refused `{Clock} (r : response) : bool :=
  (400 <=? status_code r) && (status_code r <? 500).

Section StoreFacts.
Context `{Clock} `{StrCase} {db : Type} `{!CategoryStore db}.

(** X21: a refused request changes nothing. Whenever
    [create_file_category], [update_file_category] or
    [delete_file_category] answers with a 4xx status (403, 404, 409 or
    400), the store is returned as it was: nothing is saved, deleted
    or logged; and a caller whose role is neither ['admin'] nor
    ['superadmin'], a missing role counting as ['user'], always gets
    the 403 answer from all three. *)
Theorem refused_requests_change_nothing (ctx : context) (d : db) :
  (forall data r d',
     create_file_category ctx data d = Return (r, d') ->
     refused r = true -> d' = d) /\
  (forall category_id data r d',
     update_file_category ctx category_id data d = Return (r, d') ->
     refused r = true -> d' = d) /\
  (forall category_id r d',
     delete_file_category ctx category_id d = Return (r, d') ->
     refused r = true -> d' = d) /\
  (require_admin (claims ctx) = true ->
   (forall data, create_file_category ctx data d = Return (Forbidden, d)) /\
   (forall category_id data,
      update_file_category ctx category_id data d = Return (Forbidden, d)) /\
   (forall category_id,
      delete_file_category ctx category_id d = Return (Forbidden, d))).
Proof.
  split; [|split; [|split]].
  - intros data r d'. unfold create_file_category.
    destruct (require_admin (claims ctx)); [by intros [= <- <-]|].
    destruct (code_exists d _ None); [by intros [= <- <-]|].
    destruct (construct_and_save d _ _ _ _) as [d1 c].
    destruct (code_text c); simpl; [|discriminate].
    by intros [= <- <-].
  - intros category_id data r d'. unfold update_file_category.
    destruct (require_admin (claims ctx)); [by intros [= <- <-]|].
    destruct (get_by_id d category_id) as [c|]; [|by intros [= <- <-]].
    destruct (nonempty_str (u_code data) && code_exists d _ _);
      [by intros [= <- <-]|].
    destruct (save d _) as [d1 c'].
    destruct (code_text c'); simpl; [|discriminate].
    by intros [= <- <-].
  - intros category_id r d'. unfold delete_file_category.
    destruct (require_admin (claims ctx)); [by intros [= <- <-]|].
    destruct (get_by_id d category_id) as [c|]; [|by intros [= <- <-]].
    destruct (0 <? get_user_count d c); [by intros [= <- <-]|].
    destruct (code_text c); simpl; [|discriminate].
    by intros [= <- <-].
  - intros Hr. unfold create_file_category, update_file_category,
      delete_file_category. by rewrite Hr.
Qed.

(** X22: category codes are case-insensitive. A creation request is
    handled through the upper-cased code alone: two requests whose
    codes [upper()] makes equal get the same answer and the same
    effect on the store; the existence check and the constructor
    receive the upper-cased code, and an absent or empty name is
    replaced by that code. *)
Theorem create_uses_upper_cased_code (ctx : context) (d : db) :
  (forall code code' name description status,
     str_upper code = str_upper code' ->
     create_file_category ctx (CreateData code name description status) d =
     create_file_category ctx (CreateData code' name description status) d) /\
  (forall data file_category d',
     create_file_category ctx data d = Return (Created file_category, d') ->
     code_exists d (str_upper (c_code data)) None = false /\
     exists d1,
       construct_and_save d (str_upper (c_code data))
         (if nonempty_str (c_name data) then opt_val (c_name data)
          else PStr (str_upper (c_code data)))
         (opt_val (c_description data)) (c_status data)
       = (d1, file_category)).
Proof.
  split.
  - intros code code' name description status Hu.
    unfold create_file_category. simpl. by rewrite Hu.
  - intros data c d'. unfold create_file_category.
    destruct (require_admin (claims ctx)); [discriminate|].
    destruct (code_exists d _ None) eqn:He; [discriminate|].
    destruct (construct_and_save d _ _ _ _) as [d1 c'] eqn:Hs.
    destruct (code_text c'); simpl; [|discriminate].
    intros [= <- <-]. split; [done|]. by exists d1.
Qed.

(** X23: a category that is assigned to users is never deleted.
    Whoever asks, when [get_user_count] is positive the answer is the
    403 or the 400 one and the store is untouched; and the answer
    [Deleted] means that the caller is an admin, the category existed,
    no user had it, and the store is the one after [delete()] and the
    log entry with the code read before the deletion. *)
Theorem delete_spares_categories_in_use (ctx : context) (d : db)
    (category_id : string) :
  (forall file_category r d',
     get_by_id d category_id = Some file_category ->
     0 < get_user_count d file_category ->
     delete_file_category ctx category_id d = Return (r, d') ->
     d' = d /\
     (r = Forbidden \/ r = CategoryInUse (get_user_count d file_category))) /\
  (forall d',
     delete_file_category ctx category_id d = Return (Deleted, d') ->
     require_admin (claims ctx) = false /\
     exists file_category code,
       get_by_id d category_id = Some file_category /\
       get_user_count d file_category <= 0 /\
       code_text file_category = Return code /\
       d' = save_activity (delete d file_category)
              (Activity "file_category_deleted" (identity ctx)
                 ("Deleted file category: " ++ code) (remote_addr ctx))).
Proof.
  split.
  - intros c r d' Hg Hu. unfold delete_file_category. rewrite Hg.
    destruct (require_admin (claims ctx)); [intros [= <- <-]; auto|].
    apply Z.ltb_lt in Hu. rewrite Hu. intros [= <- <-]. auto.
  - intros d'. unfold delete_file_category.
    destruct (require_admin (claims ctx)); [discriminate|].
    destruct (get_by_id d category_id) as [c|]; [|discriminate].
    destruct (Z.ltb_spec 0 (get_user_count d c)); [discriminate|].
    destruct (code_text c) as [code|] eqn:Hc; simpl; [|discriminate].
    intros [= <-]. split; [done|]. by exists c, code.
Qed.

(** X24: an update changes only what the request provides. The object
    handed to [save()] is the stored one except for [code] (when a
    non-empty code is given: what [upper()] makes of it), [name] and
    [description] (when given, the empty string included) and
    [status] (when non-empty); every other attribute, and each of
    these four when not provided, is as stored. *)
Theorem update_changes_only_given_fields (ctx : context) (d : db)
    (category_id : string) (data : update_data) file_category' d' :
  update_file_category ctx category_id data d
    = Return (Updated file_category', d') ->
  exists (stored changed : category) d1,
    get_by_id d category_id = Some stored /\
    save d changed = (d1, file_category') /\
    changed !! "code" =
      (if nonempty_str (u_code data)
       then Some (PStr (str_upper (default "" (u_code data))))
       else stored !! "code") /\
    changed !! "name" =
      match u_name data with
      | Some name => Some (PStr name)
      | None => stored !! "name"
      end /\
    changed !! "description" =
      match u_description data with
      | Some text => Some (PStr text)
      | None => stored !! "description"
      end /\
    changed !! "status" =
      (if nonempty_str (u_status data)
       then Some (opt_val (u_status data))
       else stored !! "status") /\
    (forall a, a <> "code" -> a <> "name" -> a <> "description" ->
               a <> "status" -> changed !! a = stored !! a).
Proof.
  unfold update_file_category.
  destruct (require_admin (claims ctx)); [discriminate|].
  destruct (get_by_id d category_id) as [c|]; [|discriminate].
  destruct (nonempty_str (u_code data) && code_exists d _ _); [discriminate|].
  match goal with
  | |- context [save d ?x] => set (changed := x)
  end.
  destruct (save d changed) as [d1 c'] eqn:Hs.
  destruct (code_text c'); simpl; [|discriminate].
  intros [= <- <-]. exists c, changed, d1.
  split; [done|]. split; [done|].
  unfold changed.
  destruct (nonempty_str (u_code data)), (u_name data), (u_description data),
           (nonempty_str (u_status data));
    repeat split; try (intros attr H1 H2 H3 H4);
    rewrite ?lookup_insert_eq;
    repeat (rewrite lookup_insert_ne by (congruence || done);
            rewrite ?lookup_insert_eq);
    reflexivity.
Qed.
End StoreFacts.

(** *** A store in memory *)

#[local] Instance pyval_eq_dec : EqDecision (@pyval utc_seconds).
Proof. solve_decision. Defined.

Abbreviation record := (gmap string (@pyval utc_seconds)).

(** The stored objects by id, and the log. *)
Definition memory : Type := list (string * record) * list activity.

Definition has_code (code : string) (entry : string * record) : bool :=
  match entry.2 !! "code" with
  | Some (PStr s) => String.eqb s code
  | _ => false
  end.

Definition find_id (category_id : string) (m : memory) : option record :=
  snd <$> List.find (fun entry => String.eqb entry.1 category_id) m.1.

(** Every category whose code is ["CHECKS"] counts two users. *)
Definition in_memory : @CategoryStore utc_seconds memory :=
  {| code_exists m code exclude_id :=
       existsb (fun entry =>
                  has_code code entry &&
                  negb (bool_decide (Some entry.1 = exclude_id))) m.1;
     get_by_id m category_id := find_id category_id m;
     construct_and_save m code name description status :=
       let obj : record :=
         <["code" := PStr code]>
           (<["name" := name]>
              (<["description" := description]>
                 (<["status" := PStr status]> ∅))) in
       ((m.1 ++ [(("id-" ++ code)%string, obj)], m.2), obj);
     save m obj := (m, obj);
     delete m obj :=
       (List.filter (fun entry =>
                       negb (bool_decide (entry.2 !! "code" = obj !! "code")))
                    m.1, m.2);
     get_user_count m obj := if has_code "CHECKS" ("", obj) then 2 else 0;
     value_str _ := "<object>";
     save_activity m a := (m.1, m.2 ++ [a]) |}.

Definition checks : record :=
  <["code" := PStr "CHECKS"]> (<["name" := PStr "Checks"]>
     (<["description" := PNone]> (<["status" := PStr "active"]> ∅))).

Definition stocked : memory := ([("id-CHECKS", checks)], []).

Definition as_admin : context :=
  Context {[ "role" := JStr "admin" ]} "7" (Some "10.0.0.1").

Definition as_guest : context := Context ∅ "9" None.

Definition create := @create_file_category utc_seconds ascii_case memory in_memory.
Definition update := @update_file_category utc_seconds ascii_case memory in_memory.
Definition remove := @delete_file_category utc_seconds memory in_memory.

Lemma refused_requests_change_nothing_witness :
  create as_guest (CreateData "w2" None None "active") stocked
  = Return (Forbidden, stocked) /\
  exists r,
    create as_admin (CreateData "checks" None None "active") stocked
    = Return (r, stocked).
Proof.
  destruct (@refused_requests_change_nothing utc_seconds ascii_case
              memory in_memory as_guest stocked)
    as (_ & _ & _ & Hguest).
  destruct (@refused_requests_change_nothing utc_seconds ascii_case
              memory in_memory as_admin stocked)
    as (Hcreate & _).
  split.
  - apply Hguest. reflexivity.
  - destruct (create as_admin (CreateData "checks" None None "active") stocked)
      as [[r d']|e] eqn:Hr; [|vm_compute in Hr; discriminate].
    exists r. rewrite (Hcreate _ r d' Hr); [reflexivity|].
    vm_compute in Hr. injection Hr as <- _. reflexivity.
Defined.

Lemma create_uses_upper_cased_code_witness :
  create as_admin (CreateData "Leave_Documents" None None "active") stocked
  = create as_admin (CreateData "LEAVE_documents" None None "active") stocked.
Proof.
  apply (proj1 (@create_uses_upper_cased_code utc_seconds ascii_case
                  memory in_memory as_admin stocked)).
  reflexivity.
Defined.

Lemma delete_spares_categories_in_use_witness :
  exists r,
    remove as_admin "id-CHECKS" stocked = Return (r, stocked) /\
    (r = Forbidden \/ r = CategoryInUse 2).
Proof.
  destruct (remove as_admin "id-CHECKS" stocked)
    as [[r d']|e] eqn:Hr; [|vm_compute in Hr; discriminate].
  destruct (proj1 (@delete_spares_categories_in_use utc_seconds
                     memory in_memory as_admin stocked "id-CHECKS")
              checks r d')
    as [-> Hcases]; [reflexivity | reflexivity | exact Hr |].
  exists r. split; [reflexivity | exact Hcases].
Defined.

(** A request that renames the category and leaves the rest alone; it
    passes the schema's [check_at_least_one_field]. *)
Definition renaming : update_data :=
  UpdateData None (Some "Payroll checks") None None.

Lemma update_changes_only_given_fields_witness :
  check_at_least_one_field renaming = true /\
  exists stored changed : record,
    @get_by_id utc_seconds memory in_memory stocked "id-CHECKS" = Some stored /\
    changed !! "name" = Some (PStr "Payroll checks") /\
    changed !! "code" = stored !! "code" /\
    changed !! "status" = stored !! "status".
Proof.
  split; [reflexivity|].
  destruct (update as_admin "id-CHECKS" renaming stocked)
    as [[r d']|e] eqn:Hr; [|vm_compute in Hr; discriminate].
  assert (Hu : exists c, r = Updated c).
  { vm_compute in Hr. injection Hr as <- _. by eexists. }
  destruct Hu as [c ->].
  destruct (@update_changes_only_given_fields utc_seconds ascii_case
              memory in_memory as_admin stocked
              "id-CHECKS" renaming c d' Hr)
    as (stored & changed & d1 & Hg & _ & Hc & Hn & _ & Hs & _).
  exists stored, changed. split; [exact Hg|].
  split; [exact Hn|]. split; [exact Hc | exact Hs].
Defined.

End CrudFacts.
